(** * mongoose-strictmodel: the query guard of [src/index.js]

    [StrictModelPlugin(Schema, options)] collects the schema's path names in
    [paths], reads two flags from [options] and registers [restrictSelect] as
    a pre hook of every read-style operation.  [restrictSelect] first checks
    the keys of the query's conditions against [paths], then rewrites the
    query's projection ([query._fields]).

    The embedding keeps the shape of the source: JavaScript objects are
    association lists in [Object.keys] order, [Array.prototype.indexOf]
    returns an index or [-1], and [restrictSelect] is written in a small
    state-and-exception monad over the query it mutates. *)

From Stdlib Require Import List Ascii String ZArith Lia Bool.
Import ListNotations.

Local Open Scope Z_scope.

(** ** JavaScript values and plain objects *)

(** The values a projection or a condition can hold.  The guard only ever
    compares them with the numbers [1] and [0] by strict equality, so a value
    is an integral number or something else (a string, a boolean, a nested
    object such as [{$slice: 5}], a non-integral number, ...). *)
Inductive jsval : Type :=
| JNum (n : Z)
| JOther.

(** A plain object: its own properties, in the order [Object.keys] lists
    them.  A JavaScript object holds every key once ([well_formed]). *)
Definition object : Type := list (string * jsval).

Definition Object_keys (o : object) : list string := map fst o.

Definition well_formed (o : object) : Prop := NoDup (Object_keys o).

(** [o[k]]: [None] stands for [undefined]. *)
Fixpoint get (k : string) (o : object) : option jsval :=
  match o with
  | [] => None
  | (k', v) :: o' => if String.eqb k k' then Some v else get k o'
  end.

(** [o[k] = v]: an existing property keeps its place, a new one goes last.
    (JavaScript lists keys that are array indices first; such names are left
    out of the model, which only matters for the order of the entries.) *)
Fixpoint set (k : string) (v : jsval) (o : object) : object :=
  match o with
  | [] => [(k, v)]
  | (k', v') :: o' =>
      if String.eqb k k' then (k', v) :: o' else (k', v') :: set k v o'
  end.

(** [x === n] for a looked-up property [x] and a number literal [n]. *)
Definition strict_eq (x : option jsval) (n : Z) : bool :=
  match x with
  | Some (JNum m) => Z.eqb m n
  | _ => false
  end.

(** [xs.indexOf(x)], counting from [i]. *)
Fixpoint indexOf_from (i : Z) (xs : list string) (x : string) : Z :=
  match xs with
  | [] => -1
  | y :: xs' => if String.eqb y x then i else indexOf_from (i + 1) xs' x
  end.

Definition indexOf (xs : list string) (x : string) : Z := indexOf_from 0 xs x.

(** [xs.length], a JavaScript number. *)
Definition len {A : Type} (xs : list A) : Z := Z.of_nat (List.length xs).

(** ** The query object and the errors *)

(** What the guard reads and writes of a Mongoose query: the conditions
    returned by [getQuery()] and the projection [_fields], which is
    [undefined] ([None]) until something selects. *)
Record Query : Type := mkQuery {
  conditions : object;
  _fields : option object
}.

Definition with_fields (q : Query) (f : object) : Query :=
  {| conditions := conditions q; _fields := Some f |}.

(** The branch of the projection check an error comes from. *)
Inductive projection_mode : Type := Inclusion | Exclusion.

(** The three [throw] statements.  The first carries the offending key; the
    other two differ by their message only. *)
Inductive error : Type :=
| UnknownFilterField (queryField : string)
| UnknownSelectionField (mode : projection_mode).

Definition message (e : error) : string :=
  match e with
  | UnknownFilterField queryField =>
      "Attempting to query on a field that is not listed in Mongoose model: "
        ++ queryField
  | UnknownSelectionField Inclusion =>
      "Attempting to project on a field that is not listed in Mongoose model"
  | UnknownSelectionField Exclusion =>
      "Attempting to project on a field that is not listed in Mongoose model."
  end%string.

(** ** A monad for code that mutates the query and may throw *)

Inductive outcome (A : Type) : Type :=
| Return (a : A)
| Throw (e : error).
Arguments Return {A} a.
Arguments Throw {A} e.

(** A computation takes the query as it stands and gives the query as it
    leaves it, together with a value or the error thrown.  A [throw] leaves
    the query with whatever was assigned before it. *)
Definition M (A : Type) : Type := Query -> Query * outcome A.

Definition ret {A : Type} (a : A) : M A := fun q => (q, Return a).

Definition throw {A : Type} (e : error) : M A := fun q => (q, Throw e).

Definition bind {A B : Type} (m : M A) (k : A -> M B) : M B :=
  fun q =>
    match m q with
    | (q', Return a) => k a q'
    | (q', Throw e) => (q', Throw e)
    end.

Notation "x <- m ;; k" := (bind m (fun x => k))
  (at level 61, m at next level, right associativity).
Notation "m ;; k" := (bind m (fun _ => k))
  (at level 61, right associativity).

(** [query.getQuery()] *)
Definition getQuery : M object := fun q => (q, Return (conditions q)).

(** [query._fields] *)
Definition read_fields : M (option object) := fun q => (q, Return (_fields q)).

(** [query._fields = f] *)
Definition assign_fields (f : object) : M unit :=
  fun q => (with_fields q f, Return tt).

(** [x || {}] *)
Definition or_empty (x : option object) : object :=
  match x with
  | Some o => o
  | None => []
  end.

(** [xs.join(sep)] *)
Fixpoint join (sep : string) (xs : list string) : string :=
  match xs with
  | [] => EmptyString
  | [x] => x
  | x :: xs' => x ++ sep ++ join sep xs'
  end%string.

(** Modelled from the spec: part of [query.select], below.  A white space
    character, among the one-byte characters: tab, line feed, vertical tab,
    form feed, carriage return or space. *)
Definition is_space (c : ascii) : bool :=
  let n := nat_of_ascii c in
  ((9 <=? n) && (n <=? 13) || (n =? 32))%nat.

(** Modelled from the spec: part of [query.select], below.  The words of
    [s], a word being a longest run of characters that are not white space;
    [word] is the part already read of the first of them. *)
Fixpoint words_from (word s : string) : list string :=
  match s with
  | EmptyString =>
      match word with
      | EmptyString => []
      | _ => [word]
      end
  | String c s' =>
      if is_space c then
        match word with
        | EmptyString => words_from EmptyString s'
        | _ => word :: words_from EmptyString s'
        end
      else words_from (word ++ String c EmptyString) s'
  end.

Definition words (s : string) : list string := words_from EmptyString s.

(** Modelled from the spec: what [query.select] does for one name.  The spec
    has the setter mark the name as included; Mongoose takes a word that
    begins with [-] as the exclusion of the rest of the word. *)
Definition select_field (fields : object) (field : string) : object :=
  match field with
  | String "-"%char rest => set rest (JNum 0) fields
  | _ => set field (JNum 1) fields
  end.

(** Modelled from the spec: [query.select] is Mongoose's own method, not part
    of this repository.  The spec describes it as the setter that takes a list
    of names and marks each of them as included in the operation's
    projection.  The source hands it one string: Mongoose does nothing for
    the empty string, and otherwise takes the words of the string as the
    names. *)
Definition select (arg : string) : M unit :=
  fun q =>
    (match arg with
     | EmptyString => q
     | _ => with_fields q
              (fold_left select_field (words arg) (or_empty (_fields q)))
     end,
     Return tt).

(** A [for] loop over an array whose body may throw. *)
Fixpoint forEach {A : Type} (xs : list A) (body : A -> M unit) : M unit :=
  match xs with
  | [] => ret tt
  | x :: xs' => body x ;; forEach xs' body
  end.

(** A [for] loop that also updates a local variable. *)
Fixpoint forEachWith {A B : Type} (xs : list A) (body : B -> A -> M B) (b : B)
  : M B :=
  match xs with
  | [] => ret b
  | x :: xs' => b' <- body b x ;; forEachWith xs' body b'
  end.

(** ** The plugin *)

Section StrictModelPlugin.

(** The closure of [StrictModelPlugin]: the two flags ([!!opts.x]) and the
    names [Schema.eachPath] reported. *)
Variable allowNonModelQueryParameters : bool.
Variable allowNonModelSelectionParameters : bool.
Variable paths : list string.

(** Lines 45-57: every key of the conditions must be a path. *)
Definition checkQueryParameters : M unit :=
  if negb allowNonModelQueryParameters then
    queryConditions <- getQuery ;;
    let queryFields := Object_keys queryConditions in
    forEach queryFields (fun queryField =>
      if indexOf paths queryField =? -1
      then throw (UnknownFilterField queryField)
      else ret tt)
  else ret tt.

(** Lines 79-88: the loop of the inclusion branch. *)
Definition includeRequested (projectionFields : list string) : M object :=
  forEachWith projectionFields (fun newSelectQuery projField =>
    if indexOf paths projField >? -1
    then ret (set projField (JNum 1) newSelectQuery)
    else if negb allowNonModelSelectionParameters
    then throw (UnknownSelectionField Inclusion)
    else ret newSelectQuery) [].

(** Lines 97-104: the loop of the exclusion branch. *)
Definition includeNotExcluded (projectionFieldMap : object) : object :=
  fold_left (fun newSelectQuery path =>
    if negb (strict_eq (get path projectionFieldMap) 0)
    then set path (JNum 1) newSelectQuery
    else newSelectQuery) paths [].

(** Line 106: the count of the new projection against
    [paths.length - projectionFields.length]. *)
Definition countMismatch (newSelectQuery : object)
    (projectionFields : list string) : bool :=
  negb (len (Object_keys newSelectQuery)
        =? len paths - len projectionFields).

(** Lines 66-112: the projection check. *)
Definition checkProjection : M unit :=
  fields <- read_fields ;;
  let projectionFieldMap := or_empty fields in
  let projectionFields := Object_keys projectionFieldMap in
  let numSelectedPathIndexes := len projectionFields in
  if numSelectedPathIndexes =? 0 then
    select (join " " paths)
  else if strict_eq (get (hd EmptyString projectionFields) projectionFieldMap) 1
  then
    newSelectQuery <- includeRequested projectionFields ;;
    assign_fields newSelectQuery
  else
    let newSelectQuery := includeNotExcluded projectionFieldMap in
    if countMismatch newSelectQuery projectionFields
       && negb allowNonModelSelectionParameters
    then throw (UnknownSelectionField Exclusion)
    else assign_fields newSelectQuery.

(** Lines 38-113.  Returning normally stands for [return next()]. *)
Definition restrictSelect : M unit :=
  checkQueryParameters ;; checkProjection.

End StrictModelPlugin.

(** ** Vocabulary of the statements *)

(** [has xs x]: [x] occurs in the array [xs]. *)
Definition has (xs : list string) (x : string) : bool :=
  existsb (String.eqb x) xs.

(** The first key of the conditions that is no path, if there is one. *)
Definition firstUnknown (paths : list string) (o : object) : option string :=
  find (fun k => negb (has paths k)) (Object_keys o).

(** [include_all ks o]: [o[k] = 1] for each [k] of [ks] in turn. *)
Definition include_all (ks : list string) (o : object) : object :=
  fold_left (fun o k => set k (JNum 1) o) ks o.

(** Entries of the form [k: 1] with [k] taken from [S]. *)
Definition included_from (S : list string) (kv : string * jsval) : Prop :=
  snd kv = JNum 1 /\ In (fst kv) S.

(** The projection as [restrictSelect] reads it: [query._fields || {}]. *)
Definition projection (q : Query) : object := or_empty (_fields q).

(** Every marker of the map is the number [n]. *)
Definition all_marked (n : Z) (P : object) : Prop :=
  Forall (fun kv => snd kv = JNum n) P.

(** A projection map that asks for fields ([f: 1]), one that omits fields
    ([f: 0]).  The query layer keeps a map in one mode. *)
Definition inclusion_mode (P : object) : Prop := P <> [] /\ all_marked 1 P.
Definition exclusion_mode (P : object) : Prop := P <> [] /\ all_marked 0 P.

(** The conditions get through lines 45-57: the check is switched off, or
    every key is a path. *)
Definition filter_passes (allowQ : bool) (paths : list string) (q : Query)
  : Prop :=
  allowQ = true \/ forall k, In k (Object_keys (conditions q)) -> In k paths.

(** The paths the exclusion map does not name. *)
Definition not_excluded (paths : list string) (P : object) : list string :=
  filter (fun path => negb (has (Object_keys P) path)) paths.

(** [kept paths P f]: the field [f] belongs in the projection that is to
    replace [P].  Without projection these are the paths; after a first
    marker [1], the keys of [P] that are paths; otherwise the paths that [P]
    does not mark [0]. *)
Definition kept (paths : list string) (P : object) (f : string) : bool :=
  match P with
  | [] => has paths f
  | (_, v0) :: _ =>
      if strict_eq (Some v0) 1
      then has (Object_keys P) f && has paths f
      else has paths f && negb (strict_eq (get f P) 0)
  end.

(** A character of a plain name: a printable one-byte character other than
    the space. *)
Definition name_char (c : ascii) : bool :=
  let n := nat_of_ascii c in
  ((33 <=? n) && (n <=? 126))%nat.

Fixpoint all_chars (p : ascii -> bool) (s : string) : bool :=
  match s with
  | EmptyString => true
  | String c s' => p c && all_chars p s'
  end.

(** A name that survives [paths.join(' ')] followed by [query.select]: not
    empty, made of such characters, and not begun with [-]. *)
Definition plain_name (s : string) : bool :=
  match s with
  | EmptyString => false
  | String c _ => negb (Ascii.eqb c "-") && all_chars name_char s
  end.

Definition plain_names (paths : list string) : Prop :=
  Forall (fun s => plain_name s = true) paths.

(** Boolean checks, to decide the predicates above on given data. *)
Fixpoint distinct (xs : list string) : bool :=
  match xs with
  | [] => true
  | x :: xs' => negb (has xs' x) && distinct xs'
  end.

Definition marked (n : Z) (P : object) : bool :=
  forallb (fun kv => strict_eq (Some (snd kv)) n) P.

Definition in_mode (n : Z) (P : object) : bool :=
  match P with
  | [] => false
  | _ :: _ => marked n P
  end.

(** ** The model of the spec's scenarios

    A model with the fields [name], [email] and [age], and the queries of
    the six scenarios. *)

Definition model_paths : list string := ["name"; "email"; "age"]%string.

Definition all_model_fields : object :=
  [("name", JNum 1); ("email", JNum 1); ("age", JNum 1)]%string.

Definition query_by_name : Query :=
  {| conditions := [("name"%string, JOther)]; _fields := None |}.

Definition query_by_ssn : Query :=
  {| conditions := [("ssn"%string, JOther)]; _fields := None |}.

Definition query_selecting (P : object) : Query :=
  {| conditions := []; _fields := Some P |}.

Definition select_name : object := [("name"%string, JNum 1)].

Definition select_name_ssn : object :=
  [("name", JNum 1); ("ssn", JNum 1)]%string.

Definition select_ssn : object := [("ssn"%string, JNum 1)].

Definition omit_age : object := [("age"%string, JNum 0)].

Definition omit_age_ssn : object :=
  [("age", JNum 0); ("ssn", JNum 0)]%string.

Definition query_by_name_ssn_tax : Query :=
  {| conditions := [("name", JOther); ("ssn", JOther); ("tax", JOther)]%string;
     _fields := None |}.

Definition omit_all : object :=
  [("name", JNum 0); ("email", JNum 0); ("age", JNum 0)]%string.

Definition spaced_paths : list string := ["first name"; "age"]%string.

Definition query_all : Query := {| conditions := []; _fields := None |}.

Definition select_name_omit_age : object :=
  [("name", JNum 1); ("age", JNum 0)]%string.

Definition omit_age_select_name : object :=
  [("age", JNum 0); ("name", JNum 1)]%string.

(** ** Attaching the plugin (lines 14-37 and 115) *)

(** The value of an option, as far as [!!] tells values apart. *)
Inductive jsoption : Type :=
| OUndefined
| ONull
| OBoolean (b : bool)
| ONumber (n : Z)
| OString (s : string)
| OObject.

(** [!!v] *)
Definition toBoolean (v : jsoption) : bool :=
  match v with
  | OUndefined | ONull => false
  | OBoolean b => b
  | ONumber n => negb (n =? 0)
  | OString s => negb (String.eqb s EmptyString)
  | OObject => true
  end.

(** The two properties the plugin reads of [options]; a property that is
    not there reads [OUndefined]. *)
Record Options : Type := mkOptions {
  allowNonModelQueryParameters : jsoption;
  allowNonModelSelectionParameters : jsoption
}.

(** [options || {}], with [None] for a call without options. *)
Definition or_no_options (options : option Options) : Options :=
  match options with
  | Some o => o
  | None => mkOptions OUndefined OUndefined
  end.

(** Modelled from the spec: the schema is Mongoose's, not part of this
    repository.  The spec describes it as an object that reports the name of
    each declared field ([eachPath]) and registers a function to run before
    the operations of a kind ([pre]); here it is the names it declares, in
    the order it reports them, and the hooks registered so far, oldest
    first. *)
Record Schema : Type := mkSchema {
  declared : list string;
  hooks : list (string * M unit)
}.

(** Modelled from the spec: [Schema.eachPath(fn)], with the array [fn]
    pushes to as accumulator. *)
Definition eachPath {B : Type} (schema : Schema) (fn : B -> string -> B)
    (b : B) : B :=
  fold_left fn (declared schema) b.

(** Modelled from the spec: [Schema.pre(kind, fn)]. *)
Definition pre (kind : string) (fn : M unit) (schema : Schema) : Schema :=
  {| declared := declared schema; hooks := hooks schema ++ [(kind, fn)] |}.

(** Lines 14-37 and 115.  Each hook is [restrictSelect(this, next)] on the
    query it is run for. *)
Definition StrictModelPlugin (schema : Schema) (options : option Options)
  : Schema :=
  let opts := or_no_options options in
  let allowQ := negb (negb (toBoolean (allowNonModelQueryParameters opts))) in
  let allowS :=
    negb (negb (toBoolean (allowNonModelSelectionParameters opts))) in
  let paths := eachPath schema (fun paths pathName => paths ++ [pathName]) [] in
  let hook := restrictSelect allowQ allowS paths in
  let schema := pre "count" hook schema in
  let schema := pre "find" hook schema in
  let schema := pre "findOne" hook schema in
  let schema := pre "findOneAndRemove" hook schema in
  let schema := pre "findOneAndUpdate" hook schema in
  let schema := pre "update" hook schema in
  schema.

(** The kinds of operation the plugin hooks. *)
Definition guarded_kinds : list string :=
  ["count"; "find"; "findOne"; "findOneAndRemove"; "findOneAndUpdate";
   "update"]%string.

(** The functions registered for a kind, oldest first. *)
Definition hooks_for (kind : string) (registered : list (string * M unit))
  : list (M unit) :=
  map snd (filter (fun entry => String.eqb kind (fst entry)) registered).

(** Closes a goal whose run ended the other way. *)
Ltac no_run := let H := fresh in intros H; discriminate H.

(** ** Membership, [indexOf] and the loops *)

Lemma has_In xs x : has xs x = true <-> In x xs.
Proof.
  unfold has. rewrite existsb_exists. split.
  - intros [y [Hy E]]. apply String.eqb_eq in E. now subst.
  - intros H. exists x. split; [assumption | apply String.eqb_refl].
Qed.

Lemma has_not_In xs x : has xs x = false <-> ~ In x xs.
Proof.
  rewrite <- has_In. destruct (has xs x); split; intro H; congruence.
Qed.

Lemma indexOf_from_cases i xs x :
  0 <= i ->
  if has xs x then i <= indexOf_from i xs x else indexOf_from i xs x = -1.
Proof.
  revert i. induction xs as [|y xs IH]; intros i Hi; simpl.
  - reflexivity.
  - rewrite (String.eqb_sym x y). destruct (String.eqb y x); simpl.
    + lia.
    + specialize (IH (i + 1) ltac:(lia)).
      destruct (has xs x); [lia | assumption].
Qed.

Lemma indexOf_absent xs x : (indexOf xs x =? -1) = negb (has xs x).
Proof.
  unfold indexOf. pose proof (indexOf_from_cases 0 xs x (Z.le_refl 0)) as H.
  destruct (has xs x); simpl.
  - apply Z.eqb_neq. lia.
  - apply Z.eqb_eq. assumption.
Qed.

Lemma indexOf_present xs x : (indexOf xs x >? -1) = has xs x.
Proof.
  unfold indexOf. pose proof (indexOf_from_cases 0 xs x (Z.le_refl 0)) as H.
  rewrite Z.gtb_ltb. destruct (has xs x).
  - apply Z.ltb_lt. lia.
  - apply Z.ltb_ge. lia.
Qed.

Lemma firstUnknown_None paths o :
  firstUnknown paths o = None <->
  forall k, In k (Object_keys o) -> In k paths.
Proof.
  unfold firstUnknown. split.
  - intros H k Hk. apply has_In.
    pose proof (find_none _ _ H k Hk) as E. simpl in E.
    now destruct (has paths k).
  - intros H. destruct (find _ _) as [k|] eqn:E; [|reflexivity].
    apply find_some in E. destruct E as [Hk E].
    apply H, has_In in Hk. rewrite Hk in E. discriminate.
Qed.

Lemma firstUnknown_Some paths o f :
  firstUnknown paths o = Some f ->
  In f (Object_keys o) /\ ~ In f paths.
Proof.
  unfold firstUnknown. intros E. apply find_some in E.
  destruct E as [Hk E]. split; [assumption|].
  apply has_not_In. now destruct (has paths f).
Qed.

Lemma forEach_query_fields paths ks q :
  forEach ks (fun queryField =>
      if indexOf paths queryField =? -1
      then throw (UnknownFilterField queryField)
      else ret tt) q
  = (q, match find (fun k => negb (has paths k)) ks with
        | Some f => Throw (UnknownFilterField f)
        | None => Return tt
        end).
Proof.
  induction ks as [|k ks IH]; simpl.
  - reflexivity.
  - unfold bind. rewrite indexOf_absent.
    destruct (has paths k); simpl; [exact IH | reflexivity].
Qed.

(** What the first half of [restrictSelect] does: the query is never
    touched, and the error names the first unknown key. *)
Lemma checkQueryParameters_run allowQ paths q :
  checkQueryParameters allowQ paths q
  = (q, match (if allowQ then None else firstUnknown paths (conditions q)) with
        | Some f => Throw (UnknownFilterField f)
        | None => Return tt
        end).
Proof.
  unfold checkQueryParameters. destruct allowQ; simpl.
  - reflexivity.
  - unfold bind, getQuery. apply forEach_query_fields.
Qed.

Lemma forEachWith_include allowS paths ks acc q :
  forEachWith ks (fun newSelectQuery projField =>
      if indexOf paths projField >? -1
      then ret (set projField (JNum 1) newSelectQuery)
      else if negb allowS
      then throw (UnknownSelectionField Inclusion)
      else ret newSelectQuery) acc q
  = (q, if allowS || forallb (has paths) ks
        then Return (include_all (filter (has paths) ks) acc)
        else Throw (UnknownSelectionField Inclusion)).
Proof.
  revert acc. induction ks as [|k ks IH]; intros acc; simpl.
  - now rewrite orb_true_r.
  - unfold bind at 1. rewrite indexOf_present.
    destruct (has paths k); simpl.
    + apply IH.
    + destruct allowS; simpl.
      * apply IH.
      * reflexivity.
Qed.

Lemma includeRequested_run allowS paths ks q :
  includeRequested allowS paths ks q
  = (q, if allowS || forallb (has paths) ks
        then Return (include_all (filter (has paths) ks) [])
        else Throw (UnknownSelectionField Inclusion)).
Proof. apply forEachWith_include. Qed.

Lemma includeNotExcluded_filter paths P :
  includeNotExcluded paths P
  = include_all
      (filter (fun path => negb (strict_eq (get path P) 0)) paths) [].
Proof.
  unfold includeNotExcluded, include_all. generalize (@nil (string * jsval)).
  induction paths as [|p paths IH]; intros acc; simpl.
  - reflexivity.
  - destruct (negb (strict_eq (get p P) 0)); simpl; apply IH.
Qed.

(** ** Objects: reading back what was assigned *)

Lemma get_set_same k v o : get k (set k v o) = Some v.
Proof.
  induction o as [|[k' v'] o IH]; simpl.
  - now rewrite String.eqb_refl.
  - destruct (String.eqb k k') eqn:E; simpl; rewrite E; [reflexivity | exact IH].
Qed.

Lemma get_set_other k k' v o : k <> k' -> get k' (set k v o) = get k' o.
Proof.
  intros Hne. induction o as [|[k0 v0] o IH]; simpl.
  - apply String.eqb_neq in Hne. rewrite String.eqb_sym in Hne. now rewrite Hne.
  - destruct (String.eqb_spec k k0) as [<-|Hk]; simpl.
    + apply not_eq_sym, String.eqb_neq in Hne. now rewrite Hne.
    + now rewrite IH.
Qed.

Lemma set_absent k v o :
  ~ In k (Object_keys o) -> set k v o = o ++ [(k, v)].
Proof.
  induction o as [|[k' v'] o IH]; simpl; intros H.
  - reflexivity.
  - destruct (String.eqb_spec k k') as [->|Hne]; [tauto|].
    rewrite IH; tauto.
Qed.

Lemma keys_set k v o :
  Object_keys (set k v o)
  = if has (Object_keys o) k then Object_keys o else Object_keys o ++ [k].
Proof.
  induction o as [|[k' v'] o IH]; simpl.
  - reflexivity.
  - destruct (String.eqb k k') eqn:E; simpl.
    + reflexivity.
    + rewrite IH. now destruct (has (Object_keys o) k).
Qed.

Lemma well_formed_set k v o : well_formed o -> well_formed (set k v o).
Proof.
  unfold well_formed. intros H. rewrite keys_set.
  destruct (has (Object_keys o) k) eqn:E; [assumption|].
  apply has_not_In in E.
  apply NoDup_rev in H. rewrite <- (rev_involutive (_ ++ _)).
  apply NoDup_rev. rewrite rev_app_distr. simpl. constructor; [|assumption].
  now rewrite <- in_rev.
Qed.

Lemma Forall_set S k o :
  In k S -> Forall (included_from S) o ->
  Forall (included_from S) (set k (JNum 1) o).
Proof.
  intros Hk. induction o as [|[k' v'] o IH]; simpl; intros H.
  - constructor; [now split | constructor].
  - inversion H as [|? ? Hhd Htl]; subst.
    destruct (String.eqb_spec k k') as [->|Hne].
    + constructor; [now split | assumption].
    + constructor; [assumption | now apply IH].
Qed.

Lemma get_include_all ks o f :
  get f (include_all ks o) = if has ks f then Some (JNum 1) else get f o.
Proof.
  unfold include_all. revert o. induction ks as [|k ks IH]; intros o; simpl.
  - reflexivity.
  - rewrite IH. destruct (has ks f); simpl.
    + now rewrite orb_true_r.
    + rewrite orb_false_r. destruct (String.eqb_spec f k) as [->|Hne].
      * apply get_set_same.
      * apply get_set_other. congruence.
Qed.

Lemma well_formed_include_all ks o :
  well_formed o -> well_formed (include_all ks o).
Proof.
  unfold include_all. revert o. induction ks as [|k ks IH]; intros o H; simpl.
  - assumption.
  - now apply IH, well_formed_set.
Qed.

Lemma Forall_include_all S ks o :
  incl ks S -> Forall (included_from S) o ->
  Forall (included_from S) (include_all ks o).
Proof.
  unfold include_all. revert o. induction ks as [|k ks IH]; intros o Hin H; simpl.
  - assumption.
  - apply IH.
    + intros x Hx. apply Hin. now right.
    + apply Forall_set; [apply Hin; now left | assumption].
Qed.

(** Over distinct names that are not yet keys, [include_all] appends one
    entry per name, in order. *)
Lemma include_all_fresh ks o :
  NoDup ks -> (forall k, In k ks -> ~ In k (Object_keys o)) ->
  include_all ks o = o ++ map (fun k => (k, JNum 1)) ks.
Proof.
  unfold include_all. revert o. induction ks as [|k ks IH]; intros o Hnd Hfresh; simpl.
  - now rewrite app_nil_r.
  - inversion Hnd as [|? ? Hnotin Hnd']; subst.
    rewrite set_absent by (apply Hfresh; now left).
    rewrite IH.
    + now rewrite <- app_assoc.
    + assumption.
    + intros x Hx. unfold Object_keys. rewrite map_app, in_app_iff. simpl.
      intros [H|[H|[]]].
      * apply (Hfresh x); [now right | assumption].
      * congruence.
Qed.

Lemma include_all_nil ks :
  NoDup ks -> include_all ks [] = map (fun k => (k, JNum 1)) ks.
Proof.
  intros H. rewrite include_all_fresh; [reflexivity | assumption | intros k _ []].
Qed.

(** ** Counting *)

Lemma filter_negb_length {A : Type} (p : A -> bool) xs :
  (List.length (filter p xs)
   + List.length (filter (fun x => negb (p x)) xs))%nat = List.length xs.
Proof.
  induction xs as [|x xs IH]; simpl; [reflexivity|].
  destruct (p x); simpl; lia.
Qed.

Lemma filter_length_all {A : Type} (p : A -> bool) xs :
  List.length (filter p xs) = List.length xs <-> forallb p xs = true.
Proof.
  induction xs as [|x xs IH]; simpl; [tauto|].
  pose proof (filter_length_le p xs) as Hle.
  destruct (p x); simpl.
  - rewrite <- IH. lia.
  - split; [lia | discriminate].
Qed.

Lemma filter_has_incl xs ys : incl (filter (has ys) xs) (filter (has xs) ys).
Proof.
  intros x Hx. apply filter_In in Hx. destruct Hx as [Hin Hhas].
  apply filter_In. split; [now apply has_In | now apply has_In].
Qed.

(** Two arrays without repetition share as many names one way as the
    other. *)
Lemma common_length xs ys :
  NoDup xs -> NoDup ys ->
  List.length (filter (has ys) xs) = List.length (filter (has xs) ys).
Proof.
  intros Hx Hy. apply Nat.le_antisymm.
  - apply NoDup_incl_length; [now apply NoDup_filter | apply filter_has_incl].
  - apply NoDup_incl_length; [now apply NoDup_filter | apply filter_has_incl].
Qed.

Lemma forallb_has_incl paths ks :
  forallb (has paths) ks = true <-> (forall k, In k ks -> In k paths).
Proof.
  rewrite forallb_forall. split; intros H k Hk; apply has_In, H, Hk.
Qed.

Lemma forallb_has_false paths ks :
  forallb (has paths) ks = false <-> exists k, In k ks /\ ~ In k paths.
Proof.
  induction ks as [|k ks IH]; simpl.
  - split; [discriminate | intros [k [[] _]]].
  - destruct (has paths k) eqn:E; simpl.
    + rewrite IH. apply has_In in E. split.
      * intros [x [Hx Hn]]. exists x. tauto.
      * intros [x [[->|Hx] Hn]]; [tauto | exists x; tauto].
    + apply has_not_In in E. split; [|reflexivity].
      intros _. exists k. tauto.
Qed.

Lemma has_filter (p : string -> bool) ks f :
  has (filter p ks) f = has ks f && p f.
Proof.
  unfold has. induction ks as [|k ks IH]; simpl; [reflexivity|].
  destruct (String.eqb_spec f k) as [->|Hne]; simpl.
  - destruct (p k); simpl.
    + now rewrite String.eqb_refl.
    + rewrite IH. now rewrite andb_false_r.
  - destruct (p k); simpl; [|exact IH].
    apply String.eqb_neq in Hne. now rewrite Hne.
Qed.

(** ** The names handed to [select] *)

Lemma string_app_nil_r (s : string) : (s ++ "")%string = s.
Proof. induction s as [|c s IH]; simpl; [reflexivity | now rewrite IH]. Qed.

Lemma string_app_assoc (s t u : string) :
  ((s ++ t) ++ u)%string = (s ++ (t ++ u))%string.
Proof. induction s as [|c s IH]; simpl; [reflexivity | now rewrite IH]. Qed.

Lemma name_char_not_space c : name_char c = true -> is_space c = false.
Proof.
  unfold name_char, is_space. intros H.
  apply andb_prop in H. destruct H as [Hlo Hhi].
  apply Nat.leb_le in Hlo. apply Nat.leb_le in Hhi.
  apply orb_false_intro.
  - apply andb_false_intro2. apply Nat.leb_gt. lia.
  - apply Nat.eqb_neq. lia.
Qed.

(** Reading a run of name characters only lengthens the word begun. *)
Lemma words_from_name word name rest :
  all_chars name_char name = true ->
  words_from word (name ++ rest) = words_from (word ++ name) rest.
Proof.
  revert word. induction name as [|c name IH]; intros word H; simpl.
  - now rewrite string_app_nil_r.
  - simpl in H. apply andb_prop in H. destruct H as [Hc Hname].
    rewrite (name_char_not_space c Hc), IH by assumption.
    rewrite string_app_assoc. reflexivity.
Qed.

Lemma plain_name_chars name :
  plain_name name = true ->
  name <> EmptyString /\ all_chars name_char name = true.
Proof.
  destruct name as [|c name]; [discriminate|]. unfold plain_name.
  intros H. apply andb_prop in H. split; [discriminate | apply H].
Qed.

(** [select] reads plain names joined by spaces back as they were. *)
Lemma words_join paths :
  plain_names paths -> words (join " " paths) = paths.
Proof.
  unfold words. induction paths as [|name paths IH]; intros H.
  - reflexivity.
  - inversion H as [|? ? Hname Hrest]; subst.
    destruct (plain_name_chars name Hname) as [Hne Hchars].
    destruct paths as [|name' paths].
    + pose proof (words_from_name EmptyString name EmptyString Hchars) as Hw.
      rewrite string_app_nil_r in Hw. cbn [join]. rewrite Hw. simpl.
      destruct name; [congruence | reflexivity].
    + change (join " " (name :: name' :: paths))
        with (name ++ String " " (join " " (name' :: paths)))%string.
      rewrite words_from_name by assumption.
      cbn [words_from append]. change (is_space " ") with true. cbv iota.
      rewrite (IH Hrest). destruct name; [congruence | reflexivity].
Qed.

Lemma select_field_plain fields name :
  plain_name name = true -> select_field fields name = set name (JNum 1) fields.
Proof.
  destruct name as [|c name]; [discriminate|]. unfold plain_name.
  intros H. apply andb_prop in H. destruct H as [Hc _].
  apply negb_true_iff, Ascii.eqb_neq in Hc. unfold select_field.
  destruct c as [[] [] [] [] [] [] [] []]; try reflexivity. congruence.
Qed.

Lemma select_fields_plain paths fields :
  plain_names paths ->
  fold_left select_field paths fields = include_all paths fields.
Proof.
  unfold include_all. revert fields.
  induction paths as [|name paths IH]; intros fields H; simpl.
  - reflexivity.
  - inversion H as [|? ? Hname Hrest]; subst.
    rewrite select_field_plain by assumption. now apply IH.
Qed.

Lemma join_plain_not_empty name paths :
  plain_name name = true -> join " " (name :: paths) <> EmptyString.
Proof.
  intros H. destruct name as [|c name]; [discriminate|].
  destruct paths; simpl; discriminate.
Qed.

(** Line 73 over plain names: every path is marked as included; with no
    path at all, nothing is assigned. *)
Lemma select_join_plain paths q :
  plain_names paths -> projection q = [] ->
  select (join " " paths) q
  = (match paths with
     | [] => q
     | _ :: _ => with_fields q (include_all paths [])
     end, Return tt).
Proof.
  intros H HP. unfold select. unfold projection in HP. rewrite HP.
  destruct paths as [|name paths]; [reflexivity|].
  assert (Hname : plain_name name = true) by now inversion H.
  pose proof (join_plain_not_empty name paths Hname) as Hne.
  destruct (join " " (name :: paths)) as [|c arg] eqn:E; [congruence|].
  rewrite <- E, words_join, select_fields_plain by assumption.
  reflexivity.
Qed.

(** ** What [restrictSelect] computes *)

Lemma checkProjection_run allowS paths q :
  checkProjection allowS paths q
  = match projection q with
    | [] => select (join " " paths) q
    | (_, v0) :: _ =>
        let ks := Object_keys (projection q) in
        if strict_eq (Some v0) 1 then
          if allowS || forallb (has paths) ks
          then (with_fields q (include_all (filter (has paths) ks) []),
                Return tt)
          else (q, Throw (UnknownSelectionField Inclusion))
        else
          let included := includeNotExcluded paths (projection q) in
          if countMismatch paths included ks && negb allowS
          then (q, Throw (UnknownSelectionField Exclusion))
          else (with_fields q included, Return tt)
    end.
Proof.
  unfold checkProjection, projection, bind, read_fields.
  destruct (or_empty (_fields q)) as [|[k0 v0] P] eqn:EP.
  - reflexivity.
  - replace (len (Object_keys ((k0, v0) :: P)) =? 0) with false
      by (symmetry; apply Z.eqb_neq; unfold len; simpl; lia).
    cbn [Object_keys map fst hd get]. rewrite String.eqb_refl.
    destruct (strict_eq (Some v0) 1).
    + rewrite includeRequested_run.
      change (k0 :: map fst P) with (Object_keys ((k0, v0) :: P)).
      now destruct (allowS || forallb (has paths) (Object_keys ((k0, v0) :: P))).
    + cbv zeta.
      change (k0 :: map fst P) with (Object_keys ((k0, v0) :: P)).
      now destruct (countMismatch _ _ _ && negb allowS).
Qed.

Lemma restrictSelect_run allowQ allowS paths q :
  restrictSelect allowQ allowS paths q
  = match (if allowQ then None else firstUnknown paths (conditions q)) with
    | Some f => (q, Throw (UnknownFilterField f))
    | None => checkProjection allowS paths q
    end.
Proof.
  unfold restrictSelect, bind. rewrite checkQueryParameters_run.
  now destruct (if allowQ then None else firstUnknown paths (conditions q)).
Qed.

Lemma filter_passes_run allowQ allowS paths q :
  filter_passes allowQ paths q ->
  restrictSelect allowQ allowS paths q = checkProjection allowS paths q.
Proof.
  intros H. rewrite restrictSelect_run. destruct allowQ; [reflexivity|].
  destruct H as [H|H]; [discriminate|].
  apply firstUnknown_None in H. now rewrite H.
Qed.

Lemma inclusion_mode_head P :
  inclusion_mode P -> exists k0 P', P = (k0, JNum 1) :: P'.
Proof.
  intros [Hne Hall]. destruct P as [|[k0 v0] P']; [congruence|].
  inversion Hall as [|? ? Hv _]; subst. simpl in Hv. subst. eauto.
Qed.

Lemma exclusion_mode_head P :
  exclusion_mode P -> exists k0 P', P = (k0, JNum 0) :: P'.
Proof.
  intros [Hne Hall]. destruct P as [|[k0 v0] P']; [congruence|].
  inversion Hall as [|? ? Hv _]; subst. simpl in Hv. subst. eauto.
Qed.

(** The inclusion branch, for a map in inclusion mode. *)
Lemma checkProjection_inclusion allowS paths q P :
  _fields q = Some P -> inclusion_mode P ->
  checkProjection allowS paths q
  = if allowS || forallb (has paths) (Object_keys P)
    then (with_fields q (include_all (filter (has paths) (Object_keys P)) []),
          Return tt)
    else (q, Throw (UnknownSelectionField Inclusion)).
Proof.
  intros HP Hmode. rewrite checkProjection_run. unfold projection.
  rewrite HP. simpl or_empty.
  destruct (inclusion_mode_head P Hmode) as [k0 [P' ->]]. reflexivity.
Qed.

(** The exclusion branch, for a map in exclusion mode. *)
Lemma checkProjection_exclusion allowS paths q P :
  _fields q = Some P -> exclusion_mode P ->
  checkProjection allowS paths q
  = if countMismatch paths (includeNotExcluded paths P) (Object_keys P)
       && negb allowS
    then (q, Throw (UnknownSelectionField Exclusion))
    else (with_fields q (includeNotExcluded paths P), Return tt).
Proof.
  intros HP Hmode. rewrite checkProjection_run. unfold projection.
  rewrite HP. simpl or_empty.
  destruct (exclusion_mode_head P Hmode) as [k0 [P' ->]]. reflexivity.
Qed.

(** ** The exclusion branch on a map in exclusion mode *)

Lemma excluded_iff_key P path :
  all_marked 0 P -> strict_eq (get path P) 0 = has (Object_keys P) path.
Proof.
  unfold all_marked. induction P as [|[k v] P IH]; simpl; intros H.
  - reflexivity.
  - inversion H as [|? ? Hv Htl]; subst. simpl in Hv. subst v.
    destruct (String.eqb path k); simpl; [reflexivity | now apply IH].
Qed.

Lemma includeNotExcluded_keys paths P :
  all_marked 0 P ->
  includeNotExcluded paths P = include_all (not_excluded paths P) [].
Proof.
  intros H. rewrite includeNotExcluded_filter. f_equal.
  apply filter_ext. intros p. now rewrite excluded_iff_key.
Qed.

Lemma includeNotExcluded_map paths P :
  all_marked 0 P -> NoDup paths ->
  includeNotExcluded paths P
  = map (fun k => (k, JNum 1)) (not_excluded paths P).
Proof.
  intros H Hnd. rewrite includeNotExcluded_keys by assumption.
  apply include_all_nil. now apply NoDup_filter.
Qed.

Lemma keys_map_included ks :
  Object_keys (map (fun k => (k, JNum 1)) ks) = ks.
Proof.
  unfold Object_keys. rewrite map_map. simpl. apply map_id.
Qed.

(** The number of fields kept, against the numbers line 106 compares. *)
Lemma not_excluded_length paths P :
  well_formed P -> NoDup paths ->
  (List.length (not_excluded paths P)
   + List.length (filter (has paths) (Object_keys P)))%nat
  = List.length paths.
Proof.
  intros HP Hnd. unfold not_excluded.
  rewrite <- (common_length paths (Object_keys P)) by assumption.
  rewrite Nat.add_comm. apply filter_negb_length.
Qed.

Lemma countMismatch_unknown paths P :
  all_marked 0 P -> well_formed P -> NoDup paths ->
  countMismatch paths (includeNotExcluded paths P) (Object_keys P)
  = negb (forallb (has paths) (Object_keys P)).
Proof.
  intros H0 HP Hnd. unfold countMismatch. f_equal.
  rewrite includeNotExcluded_map, keys_map_included by assumption.
  pose proof (not_excluded_length paths P HP Hnd) as Hlen.
  pose proof (filter_length_all (has paths) (Object_keys P)) as Hall.
  pose proof (filter_length_le (has paths) (Object_keys P)) as Hle.
  unfold len. destruct (forallb (has paths) (Object_keys P)).
  - apply Z.eqb_eq. assert (E : List.length (filter (has paths) (Object_keys P))
                               = List.length (Object_keys P)) by now apply Hall.
    lia.
  - apply Z.eqb_neq. intros E.
    assert (E' : List.length (filter (has paths) (Object_keys P))
                 = List.length (Object_keys P)) by lia.
    apply Hall in E'. discriminate.
Qed.

Lemma filter_has_subset paths ks : incl (filter (has paths) ks) paths.
Proof.
  intros k Hk. apply filter_In in Hk. now apply has_In.
Qed.

Lemma well_formed_empty : well_formed [].
Proof. constructor. Qed.

(** The projection check only throws in strict mode, only its own error,
    and only with the query as it found it. *)
Lemma checkProjection_throw allowS paths q q' e :
  checkProjection allowS paths q = (q', Throw e) ->
  q' = q /\ allowS = false /\ exists mode, e = UnknownSelectionField mode.
Proof.
  rewrite checkProjection_run.
  destruct (projection q) as [|[k0 v0] P']; [no_run|]. cbv zeta.
  destruct (strict_eq (Some v0) 1).
  - destruct allowS; cbn [orb]; [no_run|].
    destruct (forallb _ _); [no_run|].
    intros [= <- <-]. eauto.
  - destruct allowS; cbn [negb].
    + rewrite andb_false_r. no_run.
    + rewrite andb_true_r. destruct (countMismatch _ _ _); [|no_run].
      intros [= <- <-]. eauto.
Qed.

(** When the projection check returns on a projection that was not empty,
    it has assigned a map of [k: 1] entries over paths, one for each field
    to keep. *)
Lemma checkProjection_return allowS paths q q' :
  projection q <> [] ->
  checkProjection allowS paths q = (q', Return tt) ->
  exists F, q' = with_fields q F
            /\ Forall (included_from paths) F /\ well_formed F
            /\ forall f, get f F = if kept paths (projection q) f
                                   then Some (JNum 1) else None.
Proof.
  rewrite checkProjection_run.
  destruct (projection q) as [|[k0 v0] P'] eqn:EP; [congruence|].
  intros _. cbv zeta. unfold kept. destruct (strict_eq (Some v0) 1).
  - destruct (allowS || forallb _ _); [|no_run].
    intros [= <-]. eexists. split; [reflexivity|]. split; [|split].
    + apply Forall_include_all; [|constructor].
      exact (filter_has_subset paths (Object_keys ((k0, v0) :: P'))).
    + apply well_formed_include_all, well_formed_empty.
    + intros f. rewrite get_include_all.
      change (if has paths k0
              then k0 :: filter (has paths) (Object_keys P')
              else filter (has paths) (Object_keys P'))
        with (filter (has paths) (Object_keys ((k0, v0) :: P'))).
      now rewrite has_filter.
  - destruct (countMismatch _ _ _ && negb allowS); [no_run|].
    intros [= <-]. eexists. split; [reflexivity|].
    rewrite includeNotExcluded_filter. split; [|split].
    + apply Forall_include_all; [|constructor].
      intros k Hk. now apply filter_In in Hk.
    + apply well_formed_include_all, well_formed_empty.
    + intros f. rewrite get_include_all. now rewrite has_filter.
Qed.

(** The projection check on no projection, over plain names. *)
Lemma checkProjection_plain allowS paths q :
  projection q = [] -> plain_names paths ->
  checkProjection allowS paths q
  = (match paths with
     | [] => q
     | _ :: _ => with_fields q (include_all paths [])
     end, Return tt).
Proof.
  intros HP Hplain. rewrite checkProjection_run, HP.
  now apply select_join_plain.
Qed.

(** The projection check leaves the conditions alone. *)
Lemma checkProjection_keeps_conditions allowS paths q :
  conditions (fst (checkProjection allowS paths q)) = conditions q.
Proof.
  rewrite checkProjection_run.
  destruct (projection q) as [|[k0 v0] P'].
  - unfold select. now destruct (join " " paths).
  - cbv zeta. destruct (strict_eq (Some v0) 1).
    + now destruct (allowS || forallb _ _).
    + now destruct (countMismatch _ _ _ && negb allowS).
Qed.

Lemma conditions_kept allowQ allowS paths q :
  conditions (fst (restrictSelect allowQ allowS paths q)) = conditions q.
Proof.
  rewrite restrictSelect_run.
  destruct (if allowQ then None else firstUnknown paths (conditions q));
    [reflexivity|].
  apply checkProjection_keeps_conditions.
Qed.

(** What a successful run leaves, when the projection was not empty or the
    paths are plain names: a map [F] of [k: 1] entries over paths, one for
    each field to keep, assigned to the query, or nothing assigned when
    there was neither a projection nor a path. *)
Lemma restrictSelect_return allowQ allowS paths q q' :
  projection q <> [] \/ plain_names paths ->
  restrictSelect allowQ allowS paths q = (q', Return tt) ->
  (if allowQ then None else firstUnknown paths (conditions q)) = None
  /\ exists F,
      Forall (included_from paths) F /\ well_formed F
      /\ (forall f, get f F = if kept paths (projection q) f
                              then Some (JNum 1) else None)
      /\ (q' = with_fields q F
          \/ (q' = q /\ projection q = [] /\ paths = [] /\ F = [])).
Proof.
  intros Hcase. rewrite restrictSelect_run.
  destruct (if allowQ then None else firstUnknown paths (conditions q));
    [no_run|].
  intros H. split; [reflexivity|].
  destruct (projection q) as [|kv P] eqn:EP.
  - destruct Hcase as [Hcase|Hplain]; [congruence|].
    rewrite (checkProjection_plain allowS paths q EP Hplain) in H.
    destruct paths as [|name paths]; injection H as <-.
    + exists []. split; [constructor|]. split; [apply well_formed_empty|].
      split; [reflexivity|]. right. repeat split.
    + exists (include_all (name :: paths) []).
      split; [|split; [|split; [|left; reflexivity]]].
      * apply Forall_include_all; [apply incl_refl | constructor].
      * apply well_formed_include_all, well_formed_empty.
      * intros f. now rewrite get_include_all.
  - apply checkProjection_return in H; [|rewrite EP; discriminate].
    rewrite EP in H. destruct H as [F [-> [HF [Hwf Hget]]]].
    exists F. tauto.
Qed.

(** ** The claims *)

(** C1, as the code has it.  Take a run of [restrictSelect] that returns
    without an error, on a query that came with a projection or over paths
    that are plain names (not empty, of printable one-byte characters other
    than the space, not begun with [-]).  Then there is a map [F], possibly
    without entries, whose every entry is [k: 1] for a path [k] and which
    holds each key once: it has an entry for exactly the fields to keep
    (the paths when there was no projection, the requested keys that are
    paths after a first marker [1], the paths not marked [0] otherwise).
    The query left is the query received with its projection replaced by
    [F]; only when there was neither a projection nor a path is nothing
    assigned, and the projection stays empty. *)
Theorem success_projection_within_schema allowQ allowS paths q q' :
  projection q <> [] \/ plain_names paths ->
  restrictSelect allowQ allowS paths q = (q', Return tt) ->
  exists F,
    Forall (included_from paths) F /\ well_formed F
    /\ (forall f, get f F = if kept paths (projection q) f
                            then Some (JNum 1) else None)
    /\ (q' = with_fields q F
        \/ (q' = q /\ projection q = [] /\ paths = [] /\ F = [])).
Proof.
  intros Hcase H.
  exact (proj2 (restrictSelect_return allowQ allowS paths q q' Hcase H)).
Qed.

(** C2, at a schema with a name that holds a space.  Line 73 joins the
    paths [first name] and [age] into the string [first name age], the same
    string as for the paths [first], [name] and [age]; on a query without
    projection [restrictSelect] returns with [first], [name] and [age]
    selected, two of them no path, and [first name] not selected. *)
Theorem spaced_path_selected_as_two_names :
  join " " spaced_paths = join " " ["first"; "name"; "age"]%string
  /\ restrictSelect false false spaced_paths query_all
     = (with_fields query_all
          [("first", JNum 1); ("name", JNum 1); ("age", JNum 1)]%string,
        Return tt)
  /\ ~ In "first"%string spaced_paths
  /\ get "first name"
       [("first", JNum 1); ("name", JNum 1); ("age", JNum 1)]%string = None.
Proof.
  split; [reflexivity|]. split; [reflexivity|]. split; [|reflexivity].
  intros [H|[H|[]]]; discriminate H.
Qed.

(** C3.  [restrictSelect] throws the unknown-filter-field error exactly when
    [allowNonModelQueryParameters] is unset and some key of the conditions
    is not a path; with the flag set it never throws that error. *)
Theorem unknown_filter_field_iff allowQ allowS paths q :
  (exists f,
      snd (restrictSelect allowQ allowS paths q)
      = Throw (UnknownFilterField f))
  <-> (allowQ = false
       /\ exists k, In k (Object_keys (conditions q)) /\ ~ In k paths).
Proof.
  rewrite restrictSelect_run. split.
  - intros [f Hf].
    assert (Hproj : snd (checkProjection allowS paths q)
                    <> Throw (UnknownFilterField f)).
    { destruct (checkProjection allowS paths q) as [q' [[]|e]] eqn:E;
        simpl; [discriminate|].
      apply checkProjection_throw in E. destruct E as [_ [_ [m ->]]].
      discriminate. }
    destruct allowQ; [contradiction|].
    split; [reflexivity|].
    destruct (firstUnknown paths (conditions q)) as [f'|] eqn:E;
      [|contradiction].
    exists f'. now apply firstUnknown_Some.
  - intros [-> [k [Hk Hn]]].
    destruct (firstUnknown paths (conditions q)) as [f|] eqn:E.
    + exists f. reflexivity.
    + exfalso. apply Hn.
      exact (proj1 (firstUnknown_None paths (conditions q)) E k Hk).
Qed.

Lemma filter_all {A : Type} (p : A -> bool) xs :
  forallb p xs = true -> filter p xs = xs.
Proof.
  induction xs as [|x xs IH]; simpl; [reflexivity|].
  destruct (p x); simpl; [|discriminate]. intros H. now rewrite IH.
Qed.

Lemma filter_none {A : Type} (p : A -> bool) xs :
  (forall x, In x xs -> p x = false) -> filter p xs = [].
Proof.
  induction xs as [|x xs IH]; simpl; intros H; [reflexivity|].
  rewrite (H x) by now left. apply IH. intros y Hy. apply H. now right.
Qed.

(** On a map whose markers are all [1], keeping keys and marking them [1]
    is keeping entries. *)
Lemma included_entries (p : string -> bool) P :
  all_marked 1 P ->
  map (fun k => (k, JNum 1)) (filter p (Object_keys P))
  = filter (fun kv => p (fst kv)) P.
Proof.
  unfold all_marked. induction P as [|[k v] P IH]; simpl; intros H.
  - reflexivity.
  - inversion H as [|? ? Hv Htl]; subst. simpl in Hv. subst v.
    destruct (p k); simpl; now rewrite IH.
Qed.

(** C4.  Take a projection in inclusion mode that names at least one field
    outside the paths, on a query whose conditions pass the first check.
    With [allowNonModelSelectionParameters] set, [restrictSelect] returns and
    the new projection holds [f: 1] exactly for the requested fields [f]
    that are paths: it is the old map without its unknown entries.  With the
    flag unset it throws the unknown-selection-field error and leaves the
    query as it was. *)
Theorem unknown_inclusion_field_dropped_or_rejected allowQ allowS paths q P :
  filter_passes allowQ paths q ->
  _fields q = Some P ->
  inclusion_mode P ->
  (exists k, In k (Object_keys P) /\ ~ In k paths) ->
  (allowS = true ->
   exists F,
     restrictSelect allowQ allowS paths q = (with_fields q F, Return tt)
     /\ (forall f, get f F = if has (Object_keys P) f && has paths f
                             then Some (JNum 1) else None)
     /\ (well_formed P -> F = filter (fun kv => has paths (fst kv)) P))
  /\ (allowS = false ->
      restrictSelect allowQ allowS paths q
      = (q, Throw (UnknownSelectionField Inclusion))).
Proof.
  intros Hpass HP Hmode Hunknown.
  rewrite filter_passes_run by assumption.
  rewrite (checkProjection_inclusion allowS paths q P HP Hmode).
  split; intros ->; cbn [orb].
  - eexists. split; [reflexivity|]. split.
    + intros f. rewrite get_include_all, has_filter. reflexivity.
    + intros Hwf. rewrite include_all_nil by now apply NoDup_filter.
      apply included_entries, Hmode.
  - apply forallb_has_false in Hunknown. now rewrite Hunknown.
Qed.

(** C5.  Take a projection in exclusion mode on a query whose conditions
    pass the first check.  The map the exclusion loop builds holds [f: 1]
    exactly for the paths [f] that are not excluded.  Line 106 compares its
    number of keys with [paths.length - projectionFields.length]: with
    [allowNonModelSelectionParameters] unset, [restrictSelect] throws the
    unknown-selection-field error when the two differ, leaving the query as
    it was, and returns with the map built as projection when they agree;
    with the flag set it returns with that map either way.  Over distinct
    paths (and a map holding each key once) the two numbers differ exactly
    when some excluded field is not a path. *)
Theorem exclusion_count_check allowQ allowS paths q P :
  filter_passes allowQ paths q ->
  _fields q = Some P ->
  exclusion_mode P ->
  let included := includeNotExcluded paths P in
  let differ :=
    len (Object_keys included) <> len paths - len (Object_keys P) in
  (forall f, get f included = if has paths f && negb (has (Object_keys P) f)
                              then Some (JNum 1) else None)
  /\ (allowS = false -> differ ->
      restrictSelect allowQ allowS paths q
      = (q, Throw (UnknownSelectionField Exclusion)))
  /\ (allowS = false -> ~ differ ->
      restrictSelect allowQ allowS paths q
      = (with_fields q included, Return tt))
  /\ (allowS = true ->
      restrictSelect allowQ allowS paths q
      = (with_fields q included, Return tt))
  /\ (well_formed P -> NoDup paths ->
      (differ <-> exists k, In k (Object_keys P) /\ ~ In k paths)).
Proof.
  intros Hpass HP Hmode included differ.
  assert (Hdiffer : countMismatch paths included (Object_keys P) = true
                    <-> differ).
  { unfold countMismatch, differ. rewrite negb_true_iff. apply Z.eqb_neq. }
  rewrite filter_passes_run by assumption.
  rewrite (checkProjection_exclusion allowS paths q P HP Hmode).
  fold included.
  split; [|split; [|split; [|split]]].
  - intros f. unfold included.
    rewrite includeNotExcluded_keys by apply Hmode.
    rewrite get_include_all. unfold not_excluded. now rewrite has_filter.
  - intros -> Hd. apply Hdiffer in Hd. now rewrite Hd.
  - intros -> Hd.
    destruct (countMismatch paths included (Object_keys P));
      [exfalso; now apply Hd, Hdiffer | reflexivity].
  - intros ->. now rewrite andb_false_r.
  - intros Hwf Hnd. rewrite <- Hdiffer, <- forallb_has_false.
    unfold included.
    rewrite (countMismatch_unknown paths P (proj2 Hmode) Hwf Hnd).
    apply negb_true_iff.
Qed.

(** C6.  A projection in exclusion mode (each key once) that excludes only
    paths, over distinct paths, on a query whose conditions pass the first
    check: [restrictSelect] returns whatever the selection flag; the new
    projection [F] has [paths.length - projectionFields.length] entries, each
    [k: 1] for a path [k], and no excluded field is a key of [F]. *)
Theorem exclusion_of_known_fields allowQ allowS paths q P :
  filter_passes allowQ paths q ->
  _fields q = Some P ->
  exclusion_mode P ->
  well_formed P ->
  NoDup paths ->
  (forall k, In k (Object_keys P) -> In k paths) ->
  exists F,
    restrictSelect allowQ allowS paths q = (with_fields q F, Return tt)
    /\ len F = len paths - len P
    /\ Forall (included_from paths) F
    /\ (forall k, In k (Object_keys P) -> ~ In k (Object_keys F)).
Proof.
  intros Hpass HP Hmode Hwf Hnd Hknown.
  apply forallb_has_incl in Hknown.
  rewrite filter_passes_run by assumption.
  rewrite (checkProjection_exclusion allowS paths q P HP Hmode).
  rewrite (countMismatch_unknown paths P (proj2 Hmode) Hwf Hnd), Hknown.
  cbn [negb andb].
  exists (includeNotExcluded paths P). split; [reflexivity|].
  split; [|split].
  - rewrite includeNotExcluded_map by (assumption || apply Hmode).
    pose proof (not_excluded_length paths P Hwf Hnd) as Hlen.
    rewrite (filter_all _ _ Hknown) in Hlen.
    unfold len, Object_keys in *. rewrite length_map in *. lia.
  - rewrite includeNotExcluded_filter.
    apply Forall_include_all; [|constructor].
    intros k Hk. now apply filter_In in Hk.
  - intros k Hk.
    rewrite includeNotExcluded_map by (assumption || apply Hmode).
    rewrite keys_map_included. unfold not_excluded. rewrite filter_In.
    apply has_In in Hk. rewrite Hk. intros [_ Habs]. discriminate.
Qed.

(** C7.  A projection in inclusion mode (each key once) that names only
    paths, on a query whose conditions pass the first check:
    [restrictSelect] returns whatever the selection flag, and the projection
    it assigns is entry for entry the one it found. *)
Theorem inclusion_of_known_fields_unchanged allowQ allowS paths q P :
  filter_passes allowQ paths q ->
  _fields q = Some P ->
  inclusion_mode P ->
  well_formed P ->
  (forall k, In k (Object_keys P) -> In k paths) ->
  restrictSelect allowQ allowS paths q = (with_fields q P, Return tt).
Proof.
  intros Hpass HP Hmode Hwf Hknown.
  apply forallb_has_incl in Hknown.
  rewrite filter_passes_run by assumption.
  rewrite (checkProjection_inclusion allowS paths q P HP Hmode).
  rewrite Hknown, orb_true_r.
  rewrite include_all_nil by now apply NoDup_filter.
  rewrite included_entries by apply Hmode.
  rewrite filter_all; [reflexivity|].
  apply forallb_forall. intros [k v] Hkv.
  apply (proj1 (forallb_forall _ _) Hknown).
  change k with (fst (k, v)). now apply in_map.
Qed.

(** C8.  With [allowNonModelQueryParameters] unset and some key of the
    conditions outside the paths, [restrictSelect] throws the
    unknown-filter-field error for such a key, and does so whatever the
    projection holds (unknown fields included) and whatever the selection
    flag: the projection check is not reached and the query is left as it
    was. *)
Theorem filter_checked_before_projection paths conds :
  (exists k, In k (Object_keys conds) /\ ~ In k paths) ->
  exists f,
    In f (Object_keys conds) /\ ~ In f paths
    /\ forall allowS fields,
        restrictSelect false allowS paths (mkQuery conds fields)
        = (mkQuery conds fields, Throw (UnknownFilterField f))
        /\ checkQueryParameters false paths (mkQuery conds fields)
           = (mkQuery conds fields, Throw (UnknownFilterField f)).
Proof.
  intros Hunknown.
  destruct (firstUnknown paths conds) as [f|] eqn:E.
  - exists f. destruct (firstUnknown_Some _ _ _ E) as [Hin Hout].
    split; [assumption|]. split; [assumption|].
    intros allowS fields.
    rewrite restrictSelect_run, checkQueryParameters_run. simpl.
    now rewrite E.
  - exfalso. destruct Hunknown as [k [Hk Hn]]. apply Hn.
    exact (proj1 (firstUnknown_None paths conds) E k Hk).
Qed.

(** C9.  Whenever [restrictSelect] throws, whichever error from whichever
    branch, the query is the one it received: neither the projection nor
    the conditions have changed. *)
Theorem query_untouched_on_error allowQ allowS paths q q' e :
  restrictSelect allowQ allowS paths q = (q', Throw e) ->
  q' = q /\ _fields q' = _fields q.
Proof.
  rewrite restrictSelect_run. intros H.
  assert (Hq : q' = q).
  { destruct (if allowQ then None else firstUnknown paths (conditions q)).
    - now injection H as <- _.
    - now apply checkProjection_throw in H. }
  now subst.
Qed.

(** C10.  A projection in inclusion mode none of whose fields is a path,
    with [allowNonModelSelectionParameters] set, on a query whose conditions
    pass the first check: [restrictSelect] returns and the projection it
    assigns is the empty map, not the list of all paths. *)
Theorem lenient_inclusion_of_unknown_fields_only allowQ paths q P :
  filter_passes allowQ paths q ->
  _fields q = Some P ->
  inclusion_mode P ->
  (forall k, In k (Object_keys P) -> ~ In k paths) ->
  restrictSelect allowQ true paths q = (with_fields q [], Return tt).
Proof.
  intros Hpass HP Hmode Hnone.
  rewrite filter_passes_run by assumption.
  rewrite (checkProjection_inclusion true paths q P HP Hmode).
  cbn [orb]. rewrite filter_none; [reflexivity|].
  intros k Hk. apply has_not_In. now apply Hnone.
Qed.

(** ** The claims on the model of the spec's scenarios *)

Lemma distinct_NoDup xs : distinct xs = true -> NoDup xs.
Proof.
  induction xs as [|x xs IH]; simpl; intros H; constructor.
  - apply andb_prop in H. destruct H as [H _].
    apply has_not_In. now destruct (has xs x).
  - apply IH. now apply andb_prop in H.
Qed.

Lemma marked_all n P : marked n P = true -> all_marked n P.
Proof.
  unfold marked, all_marked. rewrite forallb_forall, Forall_forall.
  intros H [k v] Hkv. specialize (H _ Hkv). simpl in *.
  destruct v as [m|]; [|discriminate]. apply Z.eqb_eq in H. now subst.
Qed.

Lemma in_mode_inclusion P : in_mode 1 P = true -> inclusion_mode P.
Proof.
  destruct P as [|kv P]; simpl; [discriminate|].
  intros H. split; [discriminate | now apply marked_all].
Qed.

Lemma in_mode_exclusion P : in_mode 0 P = true -> exclusion_mode P.
Proof.
  destruct P as [|kv P]; simpl; [discriminate|].
  intros H. split; [discriminate | now apply marked_all].
Qed.

Lemma filter_passes_check allowQ paths q :
  allowQ || forallb (has paths) (Object_keys (conditions q)) = true ->
  filter_passes allowQ paths q.
Proof.
  intros H. apply orb_prop in H. destruct H as [H|H].
  - now left.
  - right. now apply forallb_has_incl.
Qed.

Lemma distinct_well_formed P : distinct (Object_keys P) = true -> well_formed P.
Proof. apply distinct_NoDup. Qed.

(** Scenario 1: conditions [{name: "x"}], no projection. *)
Example scenario_no_projection :
  restrictSelect false false model_paths query_by_name
  = (with_fields query_by_name all_model_fields, Return tt).
Proof. reflexivity. Qed.

(** Scenario 2: projection [{name: 1}]. *)
Example scenario_known_inclusion :
  restrictSelect false false model_paths (query_selecting select_name)
  = (query_selecting select_name, Return tt).
Proof. reflexivity. Qed.

(** Scenario 3: projection [{name: 1, ssn: 1}], strict. *)
Example scenario_unknown_inclusion_strict :
  restrictSelect false false model_paths (query_selecting select_name_ssn)
  = (query_selecting select_name_ssn, Throw (UnknownSelectionField Inclusion)).
Proof. reflexivity. Qed.

(** Scenario 4: projection [{age: 0}]. *)
Example scenario_known_exclusion :
  restrictSelect false false model_paths (query_selecting omit_age)
  = (query_selecting [("name", JNum 1); ("email", JNum 1)]%string, Return tt).
Proof. reflexivity. Qed.

(** Scenario 5: conditions [{ssn: "x"}], strict. *)
Example scenario_unknown_filter_strict :
  restrictSelect false false model_paths query_by_ssn
  = (query_by_ssn, Throw (UnknownFilterField "ssn")).
Proof. reflexivity. Qed.

(** Scenario 6: projection [{age: 0, ssn: 0}], lenient. *)
Example scenario_unknown_exclusion_lenient :
  restrictSelect false true model_paths (query_selecting omit_age_ssn)
  = (query_selecting [("name", JNum 1); ("email", JNum 1)]%string, Return tt).
Proof. reflexivity. Qed.

(** The same projection in strict mode: two fields kept, [3 - 2] expected. *)
Example scenario_unknown_exclusion_strict :
  restrictSelect false false model_paths (query_selecting omit_age_ssn)
  = (query_selecting omit_age_ssn, Throw (UnknownSelectionField Exclusion)).
Proof. reflexivity. Qed.

(** Paths that repeat a name defeat the count of line 106: [ssn] is no path,
    yet nothing is kept, [2 - 2] is expected, and strict mode returns.  The
    schema never reports a name twice, which is what the statements about
    the count assume. *)
Example repeated_paths_defeat_the_count :
  restrictSelect false false ["age"; "age"]%string
    (query_selecting omit_age_ssn)
  = (query_selecting [], Return tt).
Proof. reflexivity. Qed.

(** Two runs that return with a projection that is no inclusion map over
    the paths.  In strict mode, excluding every field of the model leaves
    the empty map.  Without projection, over the paths [first name] and
    [age], the keys selected are [first], [name] and [age]. *)
Lemma success_projection_counterexample :
  (restrictSelect false false model_paths (query_selecting omit_all)
   = (query_selecting [], Return tt)
   /\ ~ inclusion_mode (projection (query_selecting [])))
  /\ (restrictSelect false false spaced_paths query_all
      = (with_fields query_all
           [("first", JNum 1); ("name", JNum 1); ("age", JNum 1)]%string,
         Return tt)
      /\ ~ (forall k,
              In k (Object_keys
                      [("first", JNum 1); ("name", JNum 1);
                       ("age", JNum 1)]%string) ->
              In k spaced_paths)).
Proof.
  split; split; try reflexivity.
  - intros [Hne _]. now apply Hne.
  - intros H. specialize (H "first"%string (or_introl eq_refl)).
    destruct H as [H|[H|[]]]; discriminate H.
Qed.

Lemma success_projection_within_schema_witness :
  (projection (query_selecting omit_age) <> [] \/ plain_names model_paths)
  /\ restrictSelect false false model_paths (query_selecting omit_age)
     = (query_selecting [("name", JNum 1); ("email", JNum 1)]%string,
        Return tt)
  /\ exists F,
      Forall (included_from model_paths) F /\ well_formed F
      /\ (forall f,
            get f F = if kept model_paths (projection (query_selecting omit_age)) f
                      then Some (JNum 1) else None)
      /\ (query_selecting [("name", JNum 1); ("email", JNum 1)]%string
          = with_fields (query_selecting omit_age) F
          \/ (query_selecting [("name", JNum 1); ("email", JNum 1)]%string
              = query_selecting omit_age
              /\ projection (query_selecting omit_age) = []
              /\ model_paths = [] /\ F = [])).
Proof.
  assert (Hcase : projection (query_selecting omit_age) <> []
                  \/ plain_names model_paths) by (left; discriminate).
  split; [exact Hcase|]. split; [reflexivity|].
  exact (success_projection_within_schema false false model_paths
           (query_selecting omit_age)
           (query_selecting [("name", JNum 1); ("email", JNum 1)]%string)
           Hcase eq_refl).
Defined.

Lemma unknown_inclusion_field_witness :
  filter_passes false model_paths (query_selecting select_name_ssn)
  /\ inclusion_mode select_name_ssn
  /\ (exists k, In k (Object_keys select_name_ssn) /\ ~ In k model_paths)
  /\ restrictSelect false true model_paths (query_selecting select_name_ssn)
     = (query_selecting select_name, Return tt)
  /\ restrictSelect false false model_paths (query_selecting select_name_ssn)
     = (query_selecting select_name_ssn, Throw (UnknownSelectionField Inclusion)).
Proof.
  assert (Hpass : filter_passes false model_paths
                    (query_selecting select_name_ssn))
    by (apply filter_passes_check; reflexivity).
  assert (Hmode : inclusion_mode select_name_ssn)
    by (apply in_mode_inclusion; reflexivity).
  assert (Hunknown : exists k, In k (Object_keys select_name_ssn)
                               /\ ~ In k model_paths)
    by (apply forallb_has_false; reflexivity).
  split; [exact Hpass|]. split; [exact Hmode|]. split; [exact Hunknown|].
  split.
  - destruct (proj1 (unknown_inclusion_field_dropped_or_rejected
                       false true model_paths
                       (query_selecting select_name_ssn) select_name_ssn
                       Hpass eq_refl Hmode Hunknown) eq_refl)
      as [F [Hrun [_ HF]]].
    rewrite Hrun, (HF (distinct_well_formed select_name_ssn eq_refl)).
    reflexivity.
  - apply (unknown_inclusion_field_dropped_or_rejected
             false false model_paths
             (query_selecting select_name_ssn) select_name_ssn
             Hpass eq_refl Hmode Hunknown).
    reflexivity.
Defined.

Lemma exclusion_count_check_witness :
  filter_passes false model_paths (query_selecting omit_age_ssn)
  /\ exclusion_mode omit_age_ssn
  /\ well_formed omit_age_ssn
  /\ NoDup model_paths
  /\ len (Object_keys (includeNotExcluded model_paths omit_age_ssn))
     <> len model_paths - len (Object_keys omit_age_ssn)
  /\ restrictSelect false false model_paths (query_selecting omit_age_ssn)
     = (query_selecting omit_age_ssn, Throw (UnknownSelectionField Exclusion))
  /\ restrictSelect false true model_paths (query_selecting omit_age_ssn)
     = (with_fields (query_selecting omit_age_ssn)
          (includeNotExcluded model_paths omit_age_ssn), Return tt).
Proof.
  assert (Hpass : filter_passes false model_paths
                    (query_selecting omit_age_ssn))
    by (apply filter_passes_check; reflexivity).
  assert (Hmode : exclusion_mode omit_age_ssn)
    by (apply in_mode_exclusion; reflexivity).
  assert (Hwf : well_formed omit_age_ssn)
    by (apply distinct_well_formed; reflexivity).
  assert (Hnd : NoDup model_paths) by (apply distinct_NoDup; reflexivity).
  assert (Hunknown : exists k, In k (Object_keys omit_age_ssn)
                               /\ ~ In k model_paths)
    by (apply forallb_has_false; reflexivity).
  pose proof (exclusion_count_check false false model_paths
                (query_selecting omit_age_ssn) omit_age_ssn
                Hpass eq_refl Hmode) as Hstrict.
  pose proof (exclusion_count_check false true model_paths
                (query_selecting omit_age_ssn) omit_age_ssn
                Hpass eq_refl Hmode) as Hlenient.
  cbv zeta in Hstrict, Hlenient.
  destruct Hstrict as [_ [Hthrow [_ [_ Hcount]]]].
  destruct Hlenient as [_ [_ [_ [Hreturn _]]]].
  assert (Hdiffer : len (Object_keys
                           (includeNotExcluded model_paths omit_age_ssn))
                    <> len model_paths - len (Object_keys omit_age_ssn))
    by (apply (Hcount Hwf Hnd), Hunknown).
  repeat (split; [assumption|]). split.
  - apply Hthrow; [reflexivity | exact Hdiffer].
  - apply Hreturn. reflexivity.
Defined.

Lemma exclusion_of_known_fields_witness :
  filter_passes false model_paths (query_selecting omit_age)
  /\ exclusion_mode omit_age
  /\ well_formed omit_age
  /\ NoDup model_paths
  /\ (forall k, In k (Object_keys omit_age) -> In k model_paths)
  /\ exists F,
      restrictSelect false false model_paths (query_selecting omit_age)
      = (with_fields (query_selecting omit_age) F, Return tt)
      /\ len F = len model_paths - len omit_age
      /\ Forall (included_from model_paths) F
      /\ (forall k, In k (Object_keys omit_age) -> ~ In k (Object_keys F)).
Proof.
  assert (Hpass : filter_passes false model_paths (query_selecting omit_age))
    by (apply filter_passes_check; reflexivity).
  assert (Hmode : exclusion_mode omit_age)
    by (apply in_mode_exclusion; reflexivity).
  assert (Hwf : well_formed omit_age)
    by (apply distinct_well_formed; reflexivity).
  assert (Hnd : NoDup model_paths) by (apply distinct_NoDup; reflexivity).
  assert (Hknown : forall k, In k (Object_keys omit_age) -> In k model_paths)
    by (apply forallb_has_incl; reflexivity).
  repeat (split; [assumption|]).
  exact (exclusion_of_known_fields false false model_paths
           (query_selecting omit_age) omit_age
           Hpass eq_refl Hmode Hwf Hnd Hknown).
Defined.

Lemma inclusion_of_known_fields_unchanged_witness :
  filter_passes false model_paths (query_selecting select_name)
  /\ inclusion_mode select_name
  /\ well_formed select_name
  /\ (forall k, In k (Object_keys select_name) -> In k model_paths)
  /\ restrictSelect false false model_paths (query_selecting select_name)
     = (with_fields (query_selecting select_name) select_name, Return tt).
Proof.
  assert (Hpass : filter_passes false model_paths (query_selecting select_name))
    by (apply filter_passes_check; reflexivity).
  assert (Hmode : inclusion_mode select_name)
    by (apply in_mode_inclusion; reflexivity).
  assert (Hwf : well_formed select_name)
    by (apply distinct_well_formed; reflexivity).
  assert (Hknown : forall k, In k (Object_keys select_name) -> In k model_paths)
    by (apply forallb_has_incl; reflexivity).
  repeat (split; [assumption|]).
  exact (inclusion_of_known_fields_unchanged false false model_paths
           (query_selecting select_name) select_name
           Hpass eq_refl Hmode Hwf Hknown).
Defined.

Lemma filter_checked_before_projection_witness :
  (exists k, In k (Object_keys (conditions query_by_ssn))
             /\ ~ In k model_paths)
  /\ exists f,
      In f (Object_keys (conditions query_by_ssn)) /\ ~ In f model_paths
      /\ forall allowS fields,
          restrictSelect false allowS model_paths
            (mkQuery (conditions query_by_ssn) fields)
          = (mkQuery (conditions query_by_ssn) fields,
             Throw (UnknownFilterField f))
          /\ checkQueryParameters false model_paths
               (mkQuery (conditions query_by_ssn) fields)
             = (mkQuery (conditions query_by_ssn) fields,
                Throw (UnknownFilterField f)).
Proof.
  assert (Hunknown : exists k, In k (Object_keys (conditions query_by_ssn))
                               /\ ~ In k model_paths)
    by (apply forallb_has_false; reflexivity).
  split; [exact Hunknown|].
  exact (filter_checked_before_projection model_paths
           (conditions query_by_ssn) Hunknown).
Defined.

Lemma query_untouched_on_error_witness :
  restrictSelect false false model_paths (query_selecting select_name_ssn)
  = (query_selecting select_name_ssn, Throw (UnknownSelectionField Inclusion))
  /\ query_selecting select_name_ssn = query_selecting select_name_ssn
  /\ _fields (query_selecting select_name_ssn)
     = _fields (query_selecting select_name_ssn).
Proof.
  split; [reflexivity|].
  apply (query_untouched_on_error false false model_paths
           (query_selecting select_name_ssn) (query_selecting select_name_ssn)
           (UnknownSelectionField Inclusion)).
  reflexivity.
Defined.

Lemma lenient_inclusion_of_unknown_fields_only_witness :
  filter_passes false model_paths (query_selecting select_ssn)
  /\ inclusion_mode select_ssn
  /\ (forall k, In k (Object_keys select_ssn) -> ~ In k model_paths)
  /\ restrictSelect false true model_paths (query_selecting select_ssn)
     = (with_fields (query_selecting select_ssn) [], Return tt).
Proof.
  assert (Hpass : filter_passes false model_paths (query_selecting select_ssn))
    by (apply filter_passes_check; reflexivity).
  assert (Hmode : inclusion_mode select_ssn)
    by (apply in_mode_inclusion; reflexivity).
  assert (Hnone : forall k, In k (Object_keys select_ssn)
                            -> ~ In k model_paths).
  { intros k Hk. apply has_not_In.
    destruct Hk as [<-|[]]. reflexivity. }
  repeat (split; [assumption|]).
  exact (lenient_inclusion_of_unknown_fields_only false model_paths
           (query_selecting select_ssn) select_ssn
           Hpass eq_refl Hmode Hnone).
Defined.

(** ** Further properties of [restrictSelect] *)

Lemma find_first {A : Type} (p : A -> bool) xs x :
  find p xs = Some x ->
  exists before after,
    xs = before ++ x :: after
    /\ (forall y, In y before -> p y = false) /\ p x = true.
Proof.
  induction xs as [|y xs IH]; simpl; [discriminate|].
  destruct (p y) eqn:E.
  - intros [= ->]. exists [], xs. split; [reflexivity|].
    split; [intros ? [] | assumption].
  - intros H. destruct (IH H) as [before [after [-> [Hb Hx]]]].
    exists (y :: before), after. split; [reflexivity|].
    split; [|assumption].
    intros z [<-|Hz]; [assumption | now apply Hb].
Qed.

Lemma restrictSelect_filter_error allowQ allowS paths q q' f :
  restrictSelect allowQ allowS paths q = (q', Throw (UnknownFilterField f)) ->
  allowQ = false /\ firstUnknown paths (conditions q) = Some f.
Proof.
  rewrite restrictSelect_run. destruct allowQ.
  - intros H. apply checkProjection_throw in H.
    destruct H as [_ [_ [m Hm]]]. discriminate.
  - destruct (firstUnknown paths (conditions q)) as [f'|].
    + intros [= _ ->]. now split.
    + intros H. apply checkProjection_throw in H.
      destruct H as [_ [_ [m Hm]]]. discriminate.
Qed.

(** X1.  The key an unknown-filter-field error carries is the first key of
    the conditions, in [Object.keys] order, that is not a path: every key
    before it is a path. *)
Theorem filter_error_names_first_unknown_key allowQ allowS paths q q' f :
  restrictSelect allowQ allowS paths q = (q', Throw (UnknownFilterField f)) ->
  exists before after,
    Object_keys (conditions q) = before ++ f :: after
    /\ (forall k, In k before -> In k paths)
    /\ ~ In f paths.
Proof.
  intros H. apply restrictSelect_filter_error in H. destruct H as [_ H].
  apply find_first in H. destruct H as [before [after [Hkeys [Hb Hf]]]].
  exists before, after. split; [assumption|]. split.
  - intros k Hk. apply has_In. specialize (Hb k Hk).
    now destruct (has paths k).
  - apply has_not_In. now destruct (has paths f).
Qed.

(** X2.  [restrictSelect] never changes the conditions of the query,
    whether it returns or throws. *)
Theorem conditions_never_modified allowQ allowS paths q :
  conditions (fst (restrictSelect allowQ allowS paths q)) = conditions q.
Proof. apply conditions_kept. Qed.

Lemma checkProjection_conditions allowS paths conds conds' fields :
  checkProjection allowS paths (mkQuery conds fields)
  = (let (q', r) := checkProjection allowS paths (mkQuery conds' fields) in
     (mkQuery conds (_fields q'), r)).
Proof.
  rewrite !checkProjection_run. unfold projection. simpl _fields.
  destruct (or_empty fields) as [|[k0 v0] P'].
  - unfold select. now destruct (join " " paths).
  - cbv zeta. destruct (strict_eq (Some v0) 1).
    + now destruct (allowS || forallb (has paths)
                                  (Object_keys ((k0, v0) :: P'))).
    + now destruct (countMismatch _ _ _ && negb allowS).
Qed.

(** X3.  With [allowNonModelQueryParameters] set, the conditions play no
    part: two queries with the same projection get the same outcome and the
    same final projection, whatever their conditions. *)
Theorem lenient_query_flag_ignores_conditions allowS paths conds conds' fields :
  snd (restrictSelect true allowS paths (mkQuery conds fields))
  = snd (restrictSelect true allowS paths (mkQuery conds' fields))
  /\ _fields (fst (restrictSelect true allowS paths (mkQuery conds fields)))
     = _fields (fst (restrictSelect true allowS paths (mkQuery conds' fields))).
Proof.
  rewrite !restrictSelect_run.
  rewrite (checkProjection_conditions allowS paths conds conds' fields).
  destruct (checkProjection allowS paths (mkQuery conds' fields)) as [q' r].
  split; reflexivity.
Qed.

Lemma first_marker_not_one v0 : v0 <> JNum 1 -> strict_eq (Some v0) 1 = false.
Proof.
  destruct v0 as [n|]; simpl; [|reflexivity].
  intros H. apply Z.eqb_neq. congruence.
Qed.

(** X4.  In the inclusion branch only the first marker is read.  For a
    projection (each key once) whose first marker is [1], on a query whose
    conditions pass the first check: if every key is a path, each key comes
    out marked [1], whatever its own marker was; with
    [allowNonModelSelectionParameters] set the keys that are paths come out
    marked [1] and the others are dropped; with the flag unset and a key that
    is no path, [restrictSelect] throws. *)
Theorem inclusion_branch_reads_first_marker_only
    allowQ allowS paths q k0 P' :
  filter_passes allowQ paths q ->
  _fields q = Some ((k0, JNum 1) :: P') ->
  well_formed ((k0, JNum 1) :: P') ->
  let ks := Object_keys ((k0, JNum 1) :: P') in
  ((forall k, In k ks -> In k paths) ->
   restrictSelect allowQ allowS paths q
   = (with_fields q (map (fun k => (k, JNum 1)) ks), Return tt))
  /\ (allowS = true ->
      restrictSelect allowQ allowS paths q
      = (with_fields q (map (fun k => (k, JNum 1)) (filter (has paths) ks)),
         Return tt))
  /\ (allowS = false ->
      (exists k, In k ks /\ ~ In k paths) ->
      restrictSelect allowQ allowS paths q
      = (q, Throw (UnknownSelectionField Inclusion))).
Proof.
  intros Hpass HP Hwf ks.
  rewrite filter_passes_run by assumption.
  rewrite checkProjection_run. unfold projection. rewrite HP.
  cbn [or_empty strict_eq Z.eqb Pos.eqb]. cbv zeta. fold ks.
  assert (Hnd : NoDup (filter (has paths) ks)) by now apply NoDup_filter.
  split; [|split].
  - intros Hknown. apply forallb_has_incl in Hknown.
    rewrite Hknown, orb_true_r.
    rewrite include_all_nil by assumption.
    now rewrite (filter_all _ _ Hknown).
  - intros ->. cbn [orb]. now rewrite include_all_nil by assumption.
  - intros -> Hunknown. apply forallb_has_false in Hunknown.
    now rewrite Hunknown.
Qed.

Lemma get_entry k v o : get k o = Some v -> In (k, v) o.
Proof.
  induction o as [|[k' v'] o IH]; simpl; [discriminate|].
  destruct (String.eqb_spec k k') as [->|Hne].
  - intros [= ->]. now left.
  - intros H. right. now apply IH.
Qed.

(** The paths an exclusion map marks [0] are no more than its entries
    marked [0]. *)
Lemma excluded_paths_length paths P :
  NoDup paths ->
  (List.length (filter (fun path => strict_eq (get path P) 0) paths)
   <= List.length (filter (fun kv => strict_eq (Some (snd kv)) 0) P))%nat.
Proof.
  intros Hnd.
  rewrite <- (length_map fst (filter (fun kv => strict_eq (Some (snd kv)) 0) P)).
  apply NoDup_incl_length; [now apply NoDup_filter|].
  intros p Hp. apply filter_In in Hp. destruct Hp as [_ Hz].
  destruct (get p P) as [v|] eqn:E; [|discriminate].
  apply get_entry in E. change p with (fst (p, v)). apply in_map.
  apply filter_In. split; assumption.
Qed.

(** When the count of line 106 agrees, every marker of the map is [0]. *)
Lemma count_agrees_all_zero paths P :
  NoDup paths ->
  countMismatch paths (includeNotExcluded paths P) (Object_keys P) = false ->
  marked 0 P = true.
Proof.
  intros Hnd Hcount. unfold countMismatch in Hcount.
  apply negb_false_iff, Z.eqb_eq in Hcount.
  rewrite includeNotExcluded_filter in Hcount.
  rewrite include_all_nil, keys_map_included in Hcount
    by now apply NoDup_filter.
  pose proof (filter_negb_length (fun path => strict_eq (get path P) 0) paths)
    as Hsplit.
  pose proof (excluded_paths_length paths P Hnd) as Hle.
  pose proof (filter_length_le (fun kv => strict_eq (Some (snd kv)) 0) P)
    as Hle'.
  unfold len, Object_keys in Hcount. rewrite length_map in Hcount.
  apply filter_length_all. lia.
Qed.

(** X5.  The exclusion branch in strict mode, over distinct paths: for a
    projection (each key once) whose first marker is not [1], on a query
    whose conditions pass the first check, [restrictSelect] returns exactly
    when every marker is [0] and every key is a path; otherwise it throws the
    unknown-selection-field error.  A map that excludes one field and then
    marks another [1] is thus rejected. *)
Theorem strict_exclusion_branch_accepts_only_zero_markers
    allowQ paths q k0 v0 P' :
  filter_passes allowQ paths q ->
  _fields q = Some ((k0, v0) :: P') ->
  v0 <> JNum 1 ->
  well_formed ((k0, v0) :: P') ->
  NoDup paths ->
  let P := (k0, v0) :: P' in
  let accepted :=
    all_marked 0 P /\ (forall k, In k (Object_keys P) -> In k paths) in
  (accepted ->
   restrictSelect allowQ false paths q
   = (with_fields q (includeNotExcluded paths P), Return tt))
  /\ (~ accepted ->
      restrictSelect allowQ false paths q
      = (q, Throw (UnknownSelectionField Exclusion))).
Proof.
  intros Hpass HP Hv0 Hwf Hnd P accepted.
  rewrite filter_passes_run by assumption.
  rewrite checkProjection_run. unfold projection. rewrite HP.
  cbn [or_empty]. rewrite (first_marker_not_one v0 Hv0). cbv zeta.
  fold P. rewrite andb_true_r.
  split.
  - intros [Hzero Hknown]. apply forallb_has_incl in Hknown.
    rewrite (countMismatch_unknown paths P Hzero Hwf Hnd), Hknown.
    reflexivity.
  - intros Hno.
    destruct (countMismatch paths (includeNotExcluded paths P) (Object_keys P))
      eqn:Hcount; [reflexivity|].
    exfalso. apply Hno.
    pose proof (marked_all 0 P (count_agrees_all_zero paths P Hnd Hcount))
      as Hzero.
    split; [assumption|]. apply forallb_has_incl.
    rewrite (countMismatch_unknown paths P Hzero Hwf Hnd) in Hcount.
    now apply negb_false_iff in Hcount.
Qed.

(** X6.  The exclusion branch in lenient mode: for a projection whose first
    marker is not [1], on a query whose conditions pass the first check,
    [restrictSelect] returns and the new projection holds [f: 1] exactly for
    the paths [f] whose marker in the old map is not [0].  An entry marked
    otherwise than [0] restricts nothing. *)
Theorem lenient_exclusion_branch_keeps_paths_not_zero
    allowQ paths q k0 v0 P' :
  filter_passes allowQ paths q ->
  _fields q = Some ((k0, v0) :: P') ->
  v0 <> JNum 1 ->
  exists F,
    restrictSelect allowQ true paths q = (with_fields q F, Return tt)
    /\ forall f,
        get f F = if has paths f
                     && negb (strict_eq (get f ((k0, v0) :: P')) 0)
                  then Some (JNum 1) else None.
Proof.
  intros Hpass HP Hv0.
  rewrite filter_passes_run by assumption.
  rewrite checkProjection_run. unfold projection. rewrite HP.
  cbn [or_empty]. rewrite (first_marker_not_one v0 Hv0). cbv zeta.
  rewrite andb_false_r.
  eexists. split; [reflexivity|].
  intros f. rewrite includeNotExcluded_filter, get_include_all.
  now rewrite has_filter.
Qed.

(** ** Running the guard again *)

Lemma included_from_known S F :
  Forall (included_from S) F ->
  all_marked 1 F /\ forallb (has S) (Object_keys F) = true.
Proof.
  intros H. split.
  - unfold all_marked. apply (Forall_impl _ (P := included_from S));
      [now intros kv [Hv _] | assumption].
  - apply forallb_has_incl. intros k Hk. unfold Object_keys in Hk.
    apply in_map_iff in Hk. destruct Hk as [kv [<- Hkv]].
    rewrite Forall_forall in H. now apply H.
Qed.

(** Rebuilding a well-formed map of [k: 1] entries over paths gives the map
    back. *)
Lemma include_all_known paths F :
  all_marked 1 F -> well_formed F ->
  forallb (has paths) (Object_keys F) = true ->
  include_all (filter (has paths) (Object_keys F)) [] = F.
Proof.
  intros Hone Hwf Hknown.
  rewrite include_all_nil by now apply NoDup_filter.
  rewrite included_entries by assumption.
  apply filter_all. apply forallb_forall. intros [k v] Hkv.
  apply (proj1 (forallb_forall _ _) Hknown).
  change k with (fst (k, v)). now apply in_map.
Qed.

(** X7.  A query [restrictSelect] has let through with a projection that
    is not empty is a fixed point: run on it again, with the same flags and
    paths, [restrictSelect] returns and leaves it as it is.  This holds when
    the first run was on a query that came with a projection, or over paths
    that are plain names. *)
Theorem second_pass_keeps_nonempty_projection allowQ allowS paths q q' :
  projection q <> [] \/ plain_names paths ->
  restrictSelect allowQ allowS paths q = (q', Return tt) ->
  projection q' <> [] ->
  restrictSelect allowQ allowS paths q' = (q', Return tt).
Proof.
  intros Hcase H Hne.
  apply restrictSelect_return in H; [|assumption].
  destruct H as [Hcheck [F [HF [Hwf [_ [->|[-> [HP _]]]]]]]]; [|congruence].
  destruct (included_from_known paths F HF) as [Hone Hknown].
  rewrite restrictSelect_run. cbn [with_fields conditions]. rewrite Hcheck.
  rewrite (checkProjection_inclusion allowS paths (with_fields q F) F eq_refl)
    by (split; assumption).
  rewrite Hknown, orb_true_r.
  now rewrite (include_all_known paths F Hone Hwf Hknown).
Qed.

(** X8.  Over paths that are plain names, at least one, a query
    [restrictSelect] has let through with the empty projection is not a
    fixed point: run on it again, [restrictSelect] returns with a different
    query, whose projection holds [f: 1] exactly for the paths [f]. *)
Theorem second_pass_fills_empty_projection allowQ allowS paths q q' :
  plain_names paths ->
  paths <> [] ->
  restrictSelect allowQ allowS paths q = (q', Return tt) ->
  projection q' = [] ->
  exists F,
    restrictSelect allowQ allowS paths q' = (with_fields q' F, Return tt)
    /\ (forall f, get f F = if has paths f then Some (JNum 1) else None)
    /\ with_fields q' F <> q'.
Proof.
  intros Hplain Hpaths H Hempty.
  assert (Hconds : conditions q' = conditions q).
  { pose proof (conditions_kept allowQ allowS paths q) as Hk.
    now rewrite H in Hk. }
  assert (Hcheck : (if allowQ then None
                    else firstUnknown paths (conditions q)) = None).
  { rewrite restrictSelect_run in H.
    now destruct (if allowQ then None else firstUnknown paths (conditions q)). }
  rewrite restrictSelect_run, Hconds, Hcheck.
  rewrite (checkProjection_plain allowS paths q' Hempty Hplain).
  destruct paths as [|name paths]; [congruence|].
  exists (include_all (name :: paths) []). split; [reflexivity|].
  assert (Hget : forall f, get f (include_all (name :: paths) [])
                           = if has (name :: paths) f
                             then Some (JNum 1) else None)
    by (intros f; now rewrite get_include_all).
  split; [exact Hget|].
  intros Heq. apply (f_equal projection) in Heq.
  cbn [projection with_fields _fields or_empty] in Heq.
  fold (projection q') in Heq. rewrite Hempty in Heq.
  specialize (Hget name). rewrite Heq in Hget.
  unfold has in Hget. cbn [existsb get] in Hget.
  rewrite String.eqb_refl in Hget. discriminate Hget.
Qed.

(** X9.  The projection of a query [restrictSelect] has let through never
    has more entries than there are paths, when the query came with a
    projection or the paths are plain names. *)
Theorem success_projection_bounded allowQ allowS paths q q' :
  projection q <> [] \/ plain_names paths ->
  restrictSelect allowQ allowS paths q = (q', Return tt) ->
  len (projection q') <= len paths.
Proof.
  intros Hcase H. apply restrictSelect_return in H; [|assumption].
  destruct H as [_ [F [HF [Hwf [_ [->|[-> [HP _]]]]]]]].
  - destruct (included_from_known paths F HF) as [_ Hknown].
    unfold projection, len. cbn [with_fields _fields or_empty].
    rewrite <- (length_map fst F). apply Nat2Z.inj_le.
    apply NoDup_incl_length; [exact Hwf|].
    intros k Hk. exact (proj1 (forallb_has_incl paths _) Hknown k Hk).
  - rewrite HP. unfold len. simpl. lia.
Qed.

(** X12.  Over paths that are plain names, at least one, a query without
    projection whose conditions pass the first check comes back with the
    projection that holds [f: 1] exactly for the paths [f]; when the paths
    are distinct it is the list of those entries in path order. *)
Theorem no_projection_selects_plain_paths allowQ allowS paths q :
  plain_names paths ->
  paths <> [] ->
  filter_passes allowQ paths q ->
  projection q = [] ->
  exists F,
    restrictSelect allowQ allowS paths q = (with_fields q F, Return tt)
    /\ (forall f, get f F = if has paths f then Some (JNum 1) else None)
    /\ well_formed F
    /\ (NoDup paths -> F = map (fun f => (f, JNum 1)) paths).
Proof.
  intros Hplain Hpaths Hpass HP.
  rewrite filter_passes_run by assumption.
  rewrite (checkProjection_plain allowS paths q HP Hplain).
  destruct paths as [|name paths]; [congruence|].
  exists (include_all (name :: paths) []). split; [reflexivity|].
  split; [|split].
  - intros f. now rewrite get_include_all.
  - apply well_formed_include_all, well_formed_empty.
  - apply include_all_nil.
Qed.

(** ** The messages *)

Lemma string_app_inv_head (p s1 s2 : string) :
  (p ++ s1 = p ++ s2)%string -> s1 = s2.
Proof.
  induction p as [|c p IH]; simpl; intros H; [assumption|].
  injection H as H. now apply IH.
Qed.

(** X10.  The three [throw] statements can be told apart by their message
    alone, and the message of the first gives back the key it reports: two
    errors with the same message are the same error. *)
Theorem message_determines_error e1 e2 : message e1 = message e2 -> e1 = e2.
Proof.
  destruct e1 as [f1|[|]], e2 as [f2|[|]]; intros H;
    try reflexivity; try (simpl in H; discriminate H).
  unfold message in H. apply string_app_inv_head in H. now subst.
Qed.

(** ** Attaching the plugin *)

Lemma push_each (names acc : list string) :
  fold_left (fun paths pathName => paths ++ [pathName]) names acc
  = acc ++ names.
Proof.
  revert acc. induction names as [|n names IH]; intros acc; simpl.
  - now rewrite app_nil_r.
  - rewrite IH. now rewrite <- app_assoc.
Qed.

Lemma hooks_for_other kind kind' fn registered :
  kind <> kind' ->
  hooks_for kind ((kind', fn) :: registered) = hooks_for kind registered.
Proof.
  intros Hne. unfold hooks_for. simpl.
  apply String.eqb_neq in Hne. now rewrite Hne.
Qed.

(** X11.  Attaching the plugin leaves the names the schema declares and the
    hooks it already had, and registers after them one hook for each of
    [count], [find], [findOne], [findOneAndRemove], [findOneAndUpdate] and
    [update], and none for any other kind of operation.  Each of these hooks
    is [restrictSelect] over the names the schema declares, in the order it
    reports them, with each flag set exactly when the option of that name is
    truthy; a call without options, or without the option, leaves it unset. *)
Theorem plugin_guards_six_kinds schema options :
  let opts := or_no_options options in
  let guard :=
    restrictSelect (toBoolean (allowNonModelQueryParameters opts))
      (toBoolean (allowNonModelSelectionParameters opts))
      (declared schema) in
  declared (StrictModelPlugin schema options) = declared schema
  /\ exists added,
      hooks (StrictModelPlugin schema options) = hooks schema ++ added
      /\ forall kind,
          hooks_for kind added
          = if has guarded_kinds kind then [guard] else [].
Proof.
  intros opts guard. split; [reflexivity|].
  exists [("count", guard); ("find", guard); ("findOne", guard);
          ("findOneAndRemove", guard); ("findOneAndUpdate", guard);
          ("update", guard)]%string.
  split.
  - unfold StrictModelPlugin, pre, eachPath. cbv zeta. cbn [hooks declared].
    rewrite push_each, !negb_involutive. cbn [app].
    rewrite <- !app_assoc. reflexivity.
  - intros kind. unfold guarded_kinds, has. cbn [existsb].
    destruct (String.eqb_spec kind "count") as [->|H1]; [reflexivity|].
    destruct (String.eqb_spec kind "find") as [->|H2]; [reflexivity|].
    destruct (String.eqb_spec kind "findOne") as [->|H3]; [reflexivity|].
    destruct (String.eqb_spec kind "findOneAndRemove") as [->|H4];
      [reflexivity|].
    destruct (String.eqb_spec kind "findOneAndUpdate") as [->|H5];
      [reflexivity|].
    destruct (String.eqb_spec kind "update") as [->|H6]; [reflexivity|].
    now rewrite !hooks_for_other by assumption.
Qed.

(** ** The further properties on the model of the spec's scenarios *)

Lemma filter_error_names_first_unknown_key_witness :
  restrictSelect false false model_paths query_by_name_ssn_tax
  = (query_by_name_ssn_tax, Throw (UnknownFilterField "ssn"))
  /\ exists before after,
      Object_keys (conditions query_by_name_ssn_tax)
      = before ++ "ssn"%string :: after
      /\ (forall k, In k before -> In k model_paths)
      /\ ~ In "ssn"%string model_paths.
Proof.
  split; [reflexivity|].
  apply (filter_error_names_first_unknown_key false false model_paths
           query_by_name_ssn_tax query_by_name_ssn_tax).
  reflexivity.
Defined.

Lemma inclusion_branch_reads_first_marker_only_witness :
  filter_passes false model_paths (query_selecting select_name_omit_age)
  /\ well_formed select_name_omit_age
  /\ (forall k, In k (Object_keys select_name_omit_age) -> In k model_paths)
  /\ restrictSelect false false model_paths
       (query_selecting select_name_omit_age)
     = (query_selecting [("name", JNum 1); ("age", JNum 1)]%string, Return tt).
Proof.
  assert (Hpass : filter_passes false model_paths
                    (query_selecting select_name_omit_age))
    by (apply filter_passes_check; reflexivity).
  assert (Hwf : well_formed select_name_omit_age)
    by (apply distinct_well_formed; reflexivity).
  assert (Hknown : forall k, In k (Object_keys select_name_omit_age)
                             -> In k model_paths)
    by (apply forallb_has_incl; reflexivity).
  repeat (split; [assumption|]).
  exact (proj1 (inclusion_branch_reads_first_marker_only
                  false false model_paths
                  (query_selecting select_name_omit_age)
                  "name"%string [("age"%string, JNum 0)]
                  Hpass eq_refl Hwf) Hknown).
Defined.

Lemma strict_exclusion_branch_witness :
  filter_passes false model_paths (query_selecting omit_age_select_name)
  /\ JNum 0 <> JNum 1
  /\ well_formed omit_age_select_name
  /\ NoDup model_paths
  /\ ~ (all_marked 0 omit_age_select_name
        /\ forall k, In k (Object_keys omit_age_select_name)
                     -> In k model_paths)
  /\ restrictSelect false false model_paths
       (query_selecting omit_age_select_name)
     = (query_selecting omit_age_select_name,
        Throw (UnknownSelectionField Exclusion)).
Proof.
  assert (Hpass : filter_passes false model_paths
                    (query_selecting omit_age_select_name))
    by (apply filter_passes_check; reflexivity).
  assert (Hv0 : JNum 0 <> JNum 1) by discriminate.
  assert (Hwf : well_formed omit_age_select_name)
    by (apply distinct_well_formed; reflexivity).
  assert (Hnd : NoDup model_paths) by (apply distinct_NoDup; reflexivity).
  assert (Hno : ~ (all_marked 0 omit_age_select_name
                   /\ forall k, In k (Object_keys omit_age_select_name)
                                -> In k model_paths)).
  { intros [Hzero _]. apply Forall_inv_tail, Forall_inv in Hzero.
    discriminate Hzero. }
  repeat (split; [assumption|]).
  exact (proj2 (strict_exclusion_branch_accepts_only_zero_markers
                  false model_paths (query_selecting omit_age_select_name)
                  "age"%string (JNum 0) [("name"%string, JNum 1)]
                  Hpass eq_refl Hv0 Hwf Hnd) Hno).
Defined.

Lemma lenient_exclusion_branch_witness :
  filter_passes false model_paths (query_selecting omit_age_select_name)
  /\ JNum 0 <> JNum 1
  /\ exists F,
      restrictSelect false true model_paths
        (query_selecting omit_age_select_name)
      = (with_fields (query_selecting omit_age_select_name) F, Return tt)
      /\ forall f,
          get f F = if has model_paths f
                       && negb (strict_eq (get f omit_age_select_name) 0)
                    then Some (JNum 1) else None.
Proof.
  assert (Hpass : filter_passes false model_paths
                    (query_selecting omit_age_select_name))
    by (apply filter_passes_check; reflexivity).
  assert (Hv0 : JNum 0 <> JNum 1) by discriminate.
  repeat (split; [assumption|]).
  exact (lenient_exclusion_branch_keeps_paths_not_zero
           false model_paths (query_selecting omit_age_select_name)
           "age"%string (JNum 0) [("name"%string, JNum 1)]
           Hpass eq_refl Hv0).
Defined.

Lemma plain_names_check paths :
  forallb plain_name paths = true -> plain_names paths.
Proof.
  unfold plain_names. rewrite forallb_forall, Forall_forall. auto.
Qed.

Lemma second_pass_keeps_nonempty_projection_witness :
  (projection (query_selecting omit_age) <> [] \/ plain_names model_paths)
  /\ restrictSelect false false model_paths (query_selecting omit_age)
     = (query_selecting [("name", JNum 1); ("email", JNum 1)]%string,
        Return tt)
  /\ projection (query_selecting [("name", JNum 1); ("email", JNum 1)]%string)
     <> []
  /\ restrictSelect false false model_paths
       (query_selecting [("name", JNum 1); ("email", JNum 1)]%string)
     = (query_selecting [("name", JNum 1); ("email", JNum 1)]%string,
        Return tt).
Proof.
  assert (Hcase : projection (query_selecting omit_age) <> []
                  \/ plain_names model_paths) by (left; discriminate).
  assert (Hne : projection (query_selecting
                              [("name", JNum 1); ("email", JNum 1)]%string)
                <> []) by discriminate.
  split; [exact Hcase|]. split; [reflexivity|]. split; [exact Hne|].
  exact (second_pass_keeps_nonempty_projection false false model_paths
           (query_selecting omit_age)
           (query_selecting [("name", JNum 1); ("email", JNum 1)]%string)
           Hcase eq_refl Hne).
Defined.

Lemma second_pass_fills_empty_projection_witness :
  plain_names model_paths
  /\ model_paths <> []
  /\ restrictSelect false true model_paths (query_selecting select_ssn)
     = (query_selecting [], Return tt)
  /\ projection (query_selecting []) = []
  /\ exists F,
      restrictSelect false true model_paths (query_selecting [])
      = (with_fields (query_selecting []) F, Return tt)
      /\ (forall f,
            get f F = if has model_paths f then Some (JNum 1) else None)
      /\ with_fields (query_selecting []) F <> query_selecting [].
Proof.
  assert (Hplain : plain_names model_paths)
    by (apply plain_names_check; reflexivity).
  assert (Hpaths : model_paths <> []) by discriminate.
  split; [exact Hplain|]. split; [exact Hpaths|].
  split; [reflexivity|]. split; [reflexivity|].
  exact (second_pass_fills_empty_projection false true model_paths
           (query_selecting select_ssn) (query_selecting [])
           Hplain Hpaths eq_refl eq_refl).
Defined.

Lemma success_projection_bounded_witness :
  (projection (query_selecting omit_age) <> [] \/ plain_names model_paths)
  /\ restrictSelect false false model_paths (query_selecting omit_age)
     = (query_selecting [("name", JNum 1); ("email", JNum 1)]%string,
        Return tt)
  /\ len (projection
            (query_selecting [("name", JNum 1); ("email", JNum 1)]%string))
     <= len model_paths.
Proof.
  assert (Hcase : projection (query_selecting omit_age) <> []
                  \/ plain_names model_paths) by (left; discriminate).
  split; [exact Hcase|]. split; [reflexivity|].
  exact (success_projection_bounded false false model_paths
           (query_selecting omit_age)
           (query_selecting [("name", JNum 1); ("email", JNum 1)]%string)
           Hcase eq_refl).
Defined.

Lemma no_projection_selects_plain_paths_witness :
  plain_names model_paths
  /\ model_paths <> []
  /\ filter_passes false model_paths query_by_name
  /\ projection query_by_name = []
  /\ exists F,
      restrictSelect false false model_paths query_by_name
      = (with_fields query_by_name F, Return tt)
      /\ (forall f,
            get f F = if has model_paths f then Some (JNum 1) else None)
      /\ well_formed F
      /\ (NoDup model_paths -> F = map (fun f => (f, JNum 1)) model_paths).
Proof.
  assert (Hplain : plain_names model_paths)
    by (apply plain_names_check; reflexivity).
  assert (Hpaths : model_paths <> []) by discriminate.
  assert (Hpass : filter_passes false model_paths query_by_name)
    by (apply filter_passes_check; reflexivity).
  split; [exact Hplain|]. split; [exact Hpaths|]. split; [exact Hpass|].
  split; [reflexivity|].
  exact (no_projection_selects_plain_paths false false model_paths
           query_by_name Hplain Hpaths Hpass eq_refl).
Defined.

Lemma message_determines_error_witness :
  message (UnknownFilterField "ssn") = message (UnknownFilterField "ssn")
  /\ UnknownFilterField "ssn" = UnknownFilterField "ssn".
Proof.
  split; [reflexivity|].
  exact (message_determines_error (UnknownFilterField "ssn")
           (UnknownFilterField "ssn") eq_refl).
Defined.
